(** * Optimistic state reconciliation of the todo front end

    A shallow embedding of [src/todo_frontend/src/App.js]: the HTTP helper
    [apiFetch], the state hooks of [App] and [NewTaskInput], and the CRUD
    handlers [addTask], [deleteTask], [toggleTask], [editTask] together with
    [NewTaskInput.submit].

    Conventions of the embedding.
    - A JavaScript string is its sequence of UTF-16 code units.
    - A task is a JavaScript object: a finite map from property names to
      values; the spread [{...t, k: v}] is the insertion [<[k:=v]> t].
    - An [async] function is cut at its [await]: the part that runs
      synchronously up to the remote call ([f_begin]) and the continuation
      that runs once the call has settled ([f_settle]).  Each part runs
      atomically (JavaScript is single threaded), parts of different calls
      may interleave.
    - [setX(v)] and [setX(prev => ...)] are applied in program order to the
      hook's current value; a handler reads the hooks of the latest render,
      which is the current value because React renders between two events. *)

From stdpp Require Import gmap strings list pretty.

(** ** JavaScript strings *)

(** A string is a list of UTF-16 code units. *)
Abbreviation jsstring := (list N).

(** A source literal (ASCII only in [App.js]) as a JavaScript string. *)
Definition lit (s : string) : jsstring :=
  (λ b : Byte.byte, Z.to_N (Z.of_nat (Byte.to_nat b))) <$> String.list_byte_of_string s.

(** WhiteSpace and LineTerminator code points of ECMAScript, the ones
    [String.prototype.trim] strips; all of them are single code units. *)
Definition is_white_space (c : N) : bool :=
  bool_decide (c ∈ [9; 10; 11; 12; 13; 32; 160; 5760;
                    8192; 8193; 8194; 8195; 8196; 8197; 8198; 8199; 8200;
                    8201; 8202; 8232; 8233; 8239; 8287; 12288; 65279]%N).

Fixpoint trimStart (s : jsstring) : jsstring :=
  match s with
  | c :: s' => if is_white_space c then trimStart s' else s
  | [] => []
  end.

Definition trimEnd (s : jsstring) : jsstring := reverse (trimStart (reverse s)).

Definition trim (s : jsstring) : jsstring := trimEnd (trimStart s).

(** ** JavaScript values *)

(** The primitive values a task property holds.  A number is an integer
    here (ids and statuses, printed in decimal by [to_string]); [NaN]
    cannot come out of [JSON.parse]. *)
Inductive value :=
  | VUndef
  | VNull
  | VBool (b : bool)
  | VNum (n : Z)
  | VStr (s : jsstring).

Global Instance value_eq_dec : EqDecision value.
Proof. solve_decision. Defined.

Global Instance value_countable : Countable value.
Proof.
  refine (inj_countable'
    (λ v, match v with
          | VUndef => inl (inl ())
          | VNull => inl (inr ())
          | VBool b => inr (inl b)
          | VNum n => inr (inr (inl n))
          | VStr s => inr (inr (inr s))
          end)
    (λ x : (unit + unit) + (bool + (Z + jsstring)), match x with
          | inl (inl _) => VUndef
          | inl (inr _) => VNull
          | inr (inl b) => VBool b
          | inr (inr (inl n)) => VNum n
          | inr (inr (inr s)) => VStr s
          end) _).
  by intros [].
Defined.

(** ToBoolean. *)
Definition truthy (v : value) : bool :=
  match v with
  | VUndef | VNull => false
  | VBool b => b
  | VNum n => negb (n =? 0)%Z
  | VStr s => negb (bool_decide (s = []))
  end.

(** [a === b] on primitives. *)
Definition strict_eq (a b : value) : bool := bool_decide (a = b).

(** ToString, as a template literal applies it. *)
Definition to_string (v : value) : jsstring :=
  match v with
  | VUndef => lit "undefined"
  | VNull => lit "null"
  | VBool true => lit "true"
  | VBool false => lit "false"
  | VNum n => lit (pretty n)
  | VStr s => s
  end.

(** [a || b] on strings: [a] unless it is empty. *)
Definition str_or (a b : jsstring) : jsstring :=
  if truthy (VStr a) then a else b.

(** ** Objects *)

(** A plain object; [obj_get o k] is the property read [o.k]. *)
Abbreviation obj := (gmap string value).

Definition obj_get (o : obj) (k : string) : value := default VUndef (o !! k).

(** ** Promises and errors *)

(** A thrown [Error]; only its [message] is ever read. *)
Record Error := { message : jsstring }.

(** A settled promise. *)
Inductive outcome (A : Type) :=
  | Resolved (a : A)
  | Rejected (e : Error).
Arguments Resolved {A} a.
Arguments Rejected {A} e.

(** ** The remote store client: [apiFetch] (App.js 11-26) *)

(** What [fetch] resolves to: the status, and what reading the body as text
    or as JSON would settle to.  [res.ok] is the 2xx range of the Fetch
    standard. *)
Record Response (J : Type) := {
  status : Z;
  text : outcome jsstring;
  json : outcome J;
}.
Arguments status {J} r.
Arguments text {J} r.
Arguments json {J} r.

Definition ok {J} (res : Response J) : bool :=
  bool_decide (200 ≤ status res ≤ 299)%Z.

(** The body readers [apiFetch] calls, in call order. *)
Inductive body_read := ReadText | ReadJson.

Section apiFetch.
(** [J] is the type of a parsed body, [null] the JavaScript [null] in it. *)
Context {J : Type} (null : J).

Definition apiFetch (fetched : outcome (Response J)) : list body_read * outcome J :=
  match fetched with
  | Rejected e => ([], Rejected e)
  | Resolved res =>
      if negb (ok res) then
        let text := match text res with Resolved t => t | Rejected _ => lit "" end in
        ([ReadText],
         Rejected {| message :=
           str_or text (lit "Request failed with status " ++ to_string (VNum (status res))) |})
      else if bool_decide (status res = 204%Z) then ([], Resolved null)
      else ([ReadJson], json res)
  end.
End apiFetch.

(** ** The hooks of [App] and [NewTaskInput] *)

(** [todos], [loading], [err] are the [useState] hooks of [App] (App.js
    200-202); [title], [busy] those of [NewTaskInput] (App.js 52-53), whose
    [disabled] prop is [loading] (App.js 301).  The [theme] hook touches no
    handler and is left out. *)
Record State := {
  todos : list obj;
  loading : bool;
  err : jsstring;
  title : jsstring;
  busy : bool;
}.

(** Code that reads and sets hooks. *)
Definition M (A : Type) : Type := State → A * State.

Global Instance M_ret : MRet M := λ A a s, (a, s).
Global Instance M_bind : MBind M := λ A B f m s, let '(a, s') := m s in f a s'.

Definition hooks : M State := λ s, (s, s).

Definition setTodos (f : list obj → list obj) : M unit := λ s,
  ((), {| todos := f (todos s); loading := loading s; err := err s;
          title := title s; busy := busy s |}).
Definition setLoading (v : bool) : M unit := λ s,
  ((), {| todos := todos s; loading := v; err := err s;
          title := title s; busy := busy s |}).
Definition setErr (v : jsstring) : M unit := λ s,
  ((), {| todos := todos s; loading := loading s; err := v;
          title := title s; busy := busy s |}).
Definition setTitle (v : jsstring) : M unit := λ s,
  ((), {| todos := todos s; loading := loading s; err := err s;
          title := v; busy := busy s |}).
Definition setBusy (v : bool) : M unit := λ s,
  ((), {| todos := todos s; loading := loading s; err := err s;
          title := title s; busy := v |}).

(** The state a piece of code leaves, and the value it returns. *)
Definition exec {A} (m : M A) (s : State) : State := (m s).2.
Definition eval {A} (m : M A) (s : State) : A := (m s).1.

(** The request a handler hands to [apiFetch]; [body] is the object given to
    [JSON.stringify]. *)
Record request := {
  method : string;
  path : jsstring;
  body : option obj;
}.

(** ** Initial load (App.js 213-230) *)

Definition load_begin : M request :=
  setErr (lit "");;
  setLoading true;;
  mret {| method := "GET"; path := lit "/todos"; body := None |}.

(** [list] is [None] when the call resolved to [null]; [mounted] is the
    liveness flag at the time the call settles. *)
Definition load_settle (mounted : bool) (o : outcome (option (list obj))) : M unit :=
  match o with
  | Resolved list => if mounted then setTodos (λ _, default [] list) else mret ()
  | Rejected e => if mounted then setErr (str_or (message e) (lit "Failed to load tasks")) else mret ()
  end;;
  if mounted then setLoading false else mret ().

(** ** [byId] (App.js 232-236) *)

Definition byId (todos : list obj) : gmap value obj :=
  foldl (λ map t, <[obj_get t "id" := t]> map) ∅ todos.

(** ** [addTask] (App.js 239-246) *)

Definition addTask_begin (title : jsstring) : M request :=
  setErr (lit "");;
  mret {| method := "POST"; path := lit "/todos";
          body := Some {[ "title" := VStr title ]} |}.

(** No [catch]: a rejection of the call rejects [addTask]. *)
Definition addTask_settle (o : outcome obj) : M (outcome unit) :=
  match o with
  | Resolved created =>
      setTodos (λ prev, created :: prev);;
      mret (Resolved ())
  | Rejected e => mret (Rejected e)
  end.

(** ** [deleteTask] (App.js 248-252) *)

Definition deleteTask_begin (id : value) : M request :=
  setErr (lit "");;
  mret {| method := "DELETE"; path := lit "/todos/" ++ to_string id; body := None |}.

Definition deleteTask_settle {J} (id : value) (o : outcome J) : M (outcome unit) :=
  match o with
  | Resolved _ =>
      setTodos (λ prev, filter (λ t, negb (strict_eq (obj_get t "id") id)) prev);;
      mret (Resolved ())
  | Rejected e => mret (Rejected e)
  end.

(** ** [toggleTask] (App.js 254-274) *)

(** The three updaters handed to [setTodos]: lines 257-259, 266, 269-271. *)
Definition toggle_optimistic (item : obj) (prev : list obj) : list obj :=
  (λ t, if strict_eq (obj_get t "id") (obj_get item "id")
        then <["completed" := VBool (negb (truthy (obj_get t "completed")))]> t
        else t) <$> prev.

Definition toggle_reconcile (updated : obj) (prev : list obj) : list obj :=
  (λ t, if strict_eq (obj_get t "id") (obj_get updated "id") then updated else t) <$> prev.

Definition toggle_rollback (item : obj) (prev : list obj) : list obj :=
  (λ t, if strict_eq (obj_get t "id") (obj_get item "id")
        then <["completed" := obj_get item "completed"]> t
        else t) <$> prev.

Definition toggleTask_begin (item : obj) : M request :=
  setErr (lit "");;
  setTodos (toggle_optimistic item);;
  mret {| method := "PATCH"; path := lit "/todos/" ++ to_string (obj_get item "id");
          body := Some {[ "completed" := VBool (negb (truthy (obj_get item "completed"))) ]} |}.

Definition toggleTask_settle (item : obj) (o : outcome obj) : M (outcome unit) :=
  match o with
  | Resolved updated => setTodos (toggle_reconcile updated)
  | Rejected e =>
      setTodos (toggle_rollback item);;
      setErr (str_or (message e) (lit "Failed to toggle task"))
  end;;
  mret (Resolved ()).

(** ** [editTask] (App.js 276-293) *)

(** The updaters of lines 281, 287 and 290. *)
Definition edit_optimistic (id : value) (title : jsstring) (prev : list obj) : list obj :=
  (λ t, if strict_eq (obj_get t "id") id then <["title" := VStr title]> t else t) <$> prev.

Definition edit_reconcile (id : value) (updated : obj) (prev : list obj) : list obj :=
  (λ t, if strict_eq (obj_get t "id") id then updated else t) <$> prev.

Definition edit_rollback (id : value) (existing : obj) (prev : list obj) : list obj :=
  (λ t, if strict_eq (obj_get t "id") id then existing else t) <$> prev.

(** Returns [None] when it returns at line 279; otherwise the snapshot
    [existing] its continuation closes over, and the request. *)
Definition editTask_begin (id : value) (title : jsstring) : M (option (obj * request)) :=
  setErr (lit "");;
  s ← hooks;
  match byId (todos s) !! id with
  | None => mret None
  | Some existing =>
      setTodos (edit_optimistic id title);;
      mret (Some (existing,
                  {| method := "PATCH"; path := lit "/todos/" ++ to_string id;
                     body := Some {[ "title" := VStr title ]} |}))
  end.

Definition editTask_settle (id : value) (existing : obj) (o : outcome obj) : M (outcome unit) :=
  match o with
  | Resolved updated => setTodos (edit_reconcile id updated)
  | Rejected e =>
      setTodos (edit_rollback id existing);;
      setErr (str_or (message e) (lit "Failed to update task"))
  end;;
  mret (Resolved ()).

(** ** [NewTaskInput.submit] (App.js 55-65), with [onAdd = addTask] *)

Definition submit_begin : M (option request) :=
  s ← hooks;
  let trimmed := trim (title s) in
  if negb (truthy (VStr trimmed)) || busy s || loading s then mret None
  else
    setBusy true;;
    r ← addTask_begin trimmed;
    mret (Some r).

(** [finally] runs on both paths; without a [catch] the rejection of
    [onAdd] rejects [submit]. *)
Definition submit_settle (o : outcome obj) : M (outcome unit) :=
  r ← addTask_settle o;
  match r with
  | Resolved _ => setTitle (lit "");; setBusy false;; mret (Resolved ())
  | Rejected e => setBusy false;; mret (Rejected e)
  end.

(** ** Vocabulary of the properties *)

(** The ids of a collection, in display order. *)
Definition ids (l : list obj) : list value := (λ t, obj_get t "id") <$> l.

(** How many entries carry the id [i]. *)
Definition count_id (i : value) (l : list obj) : nat :=
  length (filter (λ t, obj_get t "id" = i) l).

(** A call is displayable when [App] renders it: [err ? <div ...> : null]
    (App.js 302). *)
Definition displayable (msg : jsstring) : bool := truthy (VStr msg).

(** The two atomic parts of one [toggleTask(item)] whose call settles to
    [o], as state transformers. *)
Definition toggle_parts (item : obj) (o : outcome obj) : list (State → State) :=
  [exec (toggleTask_begin item); exec (toggleTask_settle item o)].

(** Running a schedule of atomic parts. *)
Definition run (sched : list (State → State)) (s : State) : State :=
  foldl (λ s f, f s) s sched.

(** [interleaving a b c]: the schedule [c] merges [a] and [b], keeping the
    order each of them has. *)
Inductive interleaving {A : Type} : list A → list A → list A → Prop :=
  | interleaving_nil : interleaving [] [] []
  | interleaving_left x a b c :
      interleaving a b c → interleaving (x :: a) b (x :: c)
  | interleaving_right x a b c :
      interleaving a b c → interleaving a (x :: b) (x :: c).

(** ** The theme and [Header] (App.js 33-47, 208-210) *)

(** The updater [toggleTheme] hands to [setTheme]. *)
Definition toggleTheme (t : jsstring) : jsstring :=
  if strict_eq (VStr t) (VStr (lit "light")) then lit "dark" else lit "light".

(** The [aria-label] and the text of the button; the moon is the surrogate
    pair of U+1F319, the sun is U+2600 with the selector U+FE0F. *)
Definition Header_aria_label (theme : jsstring) : jsstring :=
  lit "Switch to "
    ++ (if strict_eq (VStr theme) (VStr (lit "light")) then lit "dark" else lit "light")
    ++ lit " mode".

Definition Header_button_text (theme : jsstring) : jsstring :=
  if strict_eq (VStr theme) (VStr (lit "light"))
  then [55356; 57113]%N ++ lit " Dark"
  else [9728; 65039]%N ++ lit " Light".

(** ** [TodoItem] (App.js 93-170) *)

Module TodoItem.

(** The hooks of one row (App.js 95-97). *)
Record state := {
  editing : bool;
  val : jsstring;
  busy : bool;
}.

(** The checkbox: [checked={!!item.completed}] (App.js 129). *)
Definition checked (item : obj) : bool := truthy (obj_get item "completed").

(** How the synchronous part of [commit] ends: at [setEditing(false)]
    without having called [onEdit], or at the [await], with what
    [onEdit = editTask] returned ([None] when it returned at its line 279,
    so that nothing is in flight). *)
Inductive commit_step :=
  | Committed
  | Awaiting (pending : option (obj * request)).

(** [commit] (App.js 103-114) up to its [await]. *)
Definition commit_begin (item : obj) (st : state) (s : State) : commit_step * state * State :=
  let next := trim (val st) in
  if truthy (VStr next) && negb (strict_eq (VStr next) (obj_get item "title")) then
    let '(pending, s') := editTask_begin (obj_get item "id") next s in
    (Awaiting pending, {| editing := editing st; val := val st; busy := true |}, s')
  else
    (Committed, {| editing := false; val := val st; busy := busy st |}, s).


End TodoItem.

(** ** More vocabulary *)

(** The shape of every updater of toggle and edit: [g] on the entries of
    id [i], the other entries as they are. *)
Definition keyed (i : value) (g : obj → obj) (l : list obj) : list obj :=
  (λ t, if strict_eq (obj_get t "id") i then g t else t) <$> l.

(** A part of a handler that changes the collection by an updater keyed on
    [i] that keeps the id of what it changes. *)
Definition keyed_part (i : value) (p : State → State) : Prop :=
  ∃ g, (∀ t, obj_get t "id" = i → obj_get (g t) "id" = i) ∧
       ∀ s, todos (p s) = keyed i g (todos s).

(** The server answered a toggle of [item] with a task of the same id. *)
Definition same_id_answer (item : obj) (o : outcome obj) : Prop :=
  match o with
  | Resolved updated => obj_get updated "id" = obj_get item "id"
  | Rejected _ => True
  end.

(** * Properties *)

(** ** The definitions on small inputs *)

Example trim_inner_space : trim (lit "  buy milk ") = lit "buy milk".
Proof. reflexivity. Qed.

Example trim_no_break_space : trim [160; 97; 8232]%N = [97]%N.
Proof. reflexivity. Qed.

Example to_string_num : to_string (VNum 42) = lit "42".
Proof. reflexivity. Qed.

Example strict_eq_num_str : strict_eq (VNum 1) (VStr (lit "1")) = false.
Proof. reflexivity. Qed.

Example apiFetch_200 :
  apiFetch None (Resolved {| status := 200; text := Resolved (lit "[]");
                             json := Resolved (Some (@nil obj)) |})
  = ([ReadJson], Resolved (Some [])).
Proof. reflexivity. Qed.

Example byId_last_wins :
  byId [ {[ "id" := VNum 1; "title" := VStr (lit "A") ]};
         {[ "id" := VNum 1; "title" := VStr (lit "B") ]} ] !! VNum 1
  = Some {[ "id" := VNum 1; "title" := VStr (lit "B") ]}.
Proof. reflexivity. Qed.

Example toggleTask_success :
  let a : obj := {[ "id" := VNum 1; "title" := VStr (lit "A"); "completed" := VBool false ]} in
  let a' : obj := {[ "id" := VNum 1; "title" := VStr (lit "A"); "completed" := VBool true ]} in
  let s := {| todos := [a]; loading := false; err := lit "old"; title := []; busy := false |} in
  exec (toggleTask_begin a) s
    = {| todos := [a']; loading := false; err := []; title := []; busy := false |} ∧
  eval (toggleTask_begin a) s
    = {| method := "PATCH"; path := lit "/todos/1";
         body := Some {[ "completed" := VBool true ]} |} ∧
  exec (toggleTask_settle a (Resolved a')) (exec (toggleTask_begin a) s)
    = {| todos := [a']; loading := false; err := []; title := []; busy := false |}.
Proof. intros a a' s. repeat split; by vm_compute. Qed.

(** ** Strings and values *)

Lemma lit_empty : lit "" = [].
Proof. reflexivity. Qed.

Lemma str_or_nonempty (a b : jsstring) : b ≠ [] → str_or a b ≠ [].
Proof.
  intros Hb. unfold str_or. simpl. case_bool_decide as Ha; simpl; congruence.
Qed.

Lemma str_or_left (a b : jsstring) : a ≠ [] → str_or a b = a.
Proof. intros Ha. unfold str_or. simpl. by rewrite bool_decide_eq_false_2. Qed.

Lemma str_or_right (b : jsstring) : str_or [] b = b.
Proof. reflexivity. Qed.

Lemma trimStart_empty_iff (s : jsstring) :
  trimStart s = [] ↔ Forall (λ c, is_white_space c = true) s.
Proof.
  induction s as [|c s IH]; simpl.
  - split; [constructor | done].
  - destruct (is_white_space c) eqn:Hc.
    + rewrite IH. split; [by constructor | by inversion 1].
    + split; [done | inversion 1; congruence].
Qed.

Lemma trimStart_white (s : jsstring) :
  Forall (λ c, is_white_space c = true) (trimStart s) → trimStart s = [].
Proof.
  induction s as [|c s IH]; simpl; [done|].
  destruct (is_white_space c) eqn:Hc; [done|].
  inversion 1; congruence.
Qed.

(** The trimmed form is empty exactly for the empty and the whitespace-only
    strings. *)
Lemma trim_empty_iff (s : jsstring) :
  trim s = [] ↔ Forall (λ c, is_white_space c = true) s.
Proof.
  unfold trim, trimEnd. split.
  - intros H. apply trimStart_empty_iff, trimStart_white.
    apply (f_equal reverse) in H. rewrite reverse_involutive in H.
    change (reverse []) with (@nil N) in H.
    apply trimStart_empty_iff in H.
    by rewrite Forall_reverse in H.
  - intros H. apply trimStart_empty_iff in H. by rewrite H.
Qed.

Lemma strict_eq_true (a b : value) : strict_eq a b = true ↔ a = b.
Proof. unfold strict_eq. by rewrite bool_decide_eq_true. Qed.

Lemma strict_eq_false (a b : value) : strict_eq a b = false ↔ a ≠ b.
Proof. unfold strict_eq. by rewrite bool_decide_eq_false. Qed.

Lemma obj_get_insert_eq (t : obj) (k : string) (v : value) :
  obj_get (<[k:=v]> t) k = v.
Proof. unfold obj_get. by rewrite lookup_insert_eq. Qed.

Lemma obj_get_insert_ne (t : obj) (k k' : string) (v : value) :
  k ≠ k' → obj_get (<[k:=v]> t) k' = obj_get t k'.
Proof. intros Hk. unfold obj_get. by rewrite lookup_insert_ne. Qed.

(** ** The remote store client *)

(** C9. A response outside the 2xx range makes [apiFetch] reject: with the
    body text when that is readable and not empty, and with the generic
    message ending in the decimal status when the body is empty or cannot be
    read.  A 204 response makes it resolve to [null] without any body reader
    having been called. *)
Theorem apiFetch_contract {J} (null : J) (res : Response J) :
  (¬ (200 ≤ status res ≤ 299)%Z →
     (∀ t, text res = Resolved t → t ≠ [] →
        apiFetch null (Resolved res) = ([ReadText], Rejected {| message := t |})) ∧
     (text res = Resolved [] ∨ (∃ e, text res = Rejected e) →
        apiFetch null (Resolved res) =
          ([ReadText],
           Rejected {| message :=
             lit "Request failed with status " ++ lit (pretty (status res)) |}))) ∧
  (status res = 204%Z → apiFetch null (Resolved res) = ([], Resolved null)).
Proof.
  split.
  - intros Hst.
    assert (ok res = false) as Hok by (by apply bool_decide_eq_false).
    unfold apiFetch. rewrite Hok. simpl. split.
    + intros t -> Ht. by rewrite str_or_left.
    + intros [-> | [e ->]]; by rewrite ?lit_empty, str_or_right.
  - intros Hst. unfold apiFetch.
    assert (ok res = true) as -> by (apply bool_decide_eq_true; lia).
    simpl. by rewrite bool_decide_eq_true_2.
Qed.

Lemma apiFetch_contract_witness :
  let r404 := {| status := 404; text := Resolved (lit "Not Found");
                 json := Rejected {| message := lit "Unexpected token" |} |} in
  let r500 := {| status := 500; text := Resolved [];
                 json := Rejected {| message := lit "Unexpected end" |} |} in
  let r204 := {| status := 204; text := Resolved [];
                 json := Rejected {| message := lit "Unexpected end" |} |} in
  apiFetch (None : option obj) (Resolved r404)
    = ([ReadText], Rejected {| message := lit "Not Found" |}) ∧
  apiFetch (None : option obj) (Resolved r500)
    = ([ReadText], Rejected {| message := lit "Request failed with status 500" |}) ∧
  apiFetch (None : option obj) (Resolved r204) = ([], Resolved None).
Proof.
  intros r404 r500 r204. split; [|split].
  - apply (proj1 (proj1 (apiFetch_contract None r404) ltac:(simpl; lia))
             (lit "Not Found") eq_refl).
    vm_compute. discriminate.
  - apply (proj2 (proj1 (apiFetch_contract None r500) ltac:(simpl; lia))).
    left. reflexivity.
  - apply (proj2 (apiFetch_contract None r204)). reflexivity.
Defined.

(** ** Ids and the updaters *)

Lemma ids_toggle_optimistic (item : obj) (l : list obj) :
  ids (toggle_optimistic item l) = ids l.
Proof.
  unfold ids, toggle_optimistic. rewrite <- list_fmap_compose.
  apply list_fmap_ext. intros _ t _. simpl.
  destruct (strict_eq _ _); [by rewrite obj_get_insert_ne | done].
Qed.

Lemma ids_toggle_rollback (item : obj) (l : list obj) :
  ids (toggle_rollback item l) = ids l.
Proof.
  unfold ids, toggle_rollback. rewrite <- list_fmap_compose.
  apply list_fmap_ext. intros _ t _. simpl.
  destruct (strict_eq _ _); [by rewrite obj_get_insert_ne | done].
Qed.

Lemma ids_toggle_reconcile (updated : obj) (l : list obj) :
  ids (toggle_reconcile updated l) = ids l.
Proof.
  unfold ids, toggle_reconcile. rewrite <- list_fmap_compose.
  apply list_fmap_ext. intros _ t _. simpl.
  destruct (strict_eq _ _) eqn:E; [|done].
  by apply strict_eq_true in E.
Qed.

Lemma ids_edit_optimistic (id : value) (title : jsstring) (l : list obj) :
  ids (edit_optimistic id title l) = ids l.
Proof.
  unfold ids, edit_optimistic. rewrite <- list_fmap_compose.
  apply list_fmap_ext. intros _ t _. simpl.
  destruct (strict_eq _ _); [by rewrite obj_get_insert_ne | done].
Qed.

Lemma elem_of_ids (i : value) (l : list obj) :
  i ∈ ids l ↔ ∃ t, t ∈ l ∧ obj_get t "id" = i.
Proof.
  unfold ids. rewrite list_elem_of_fmap. split.
  - intros (t & -> & Ht). by exists t.
  - intros (t & Ht & <-). by exists t.
Qed.

Lemma count_id_ids (i : value) (l : list obj) :
  count_id i l = length (filter (λ j, j = i) (ids l)).
Proof.
  unfold count_id, ids. induction l as [|t l IH]; [done|].
  rewrite fmap_cons, !filter_cons. simpl.
  destruct (decide (obj_get t "id" = i)); simpl; by rewrite IH.
Qed.

(** An updater that maps every entry off the id to itself leaves a
    collection without that id alone. *)
Lemma fmap_absent_id (i : value) (g : obj → obj) (l : list obj) :
  i ∉ ids l →
  (λ t, if strict_eq (obj_get t "id") i then g t else t) <$> l = l.
Proof.
  intros Hi. rewrite <- (list_fmap_id l) at 2.
  apply list_fmap_ext. intros n t Ht. simpl.
  destruct (strict_eq _ _) eqn:E; [|done].
  exfalso. apply Hi, elem_of_ids. exists t. split.
  - by eapply list_elem_of_lookup_2.
  - by apply strict_eq_true.
Qed.

(** With unique ids an entry is determined by its id. *)
Lemma unique_id_eq (l : list obj) (t t' : obj) :
  NoDup (ids l) → t ∈ l → t' ∈ l → obj_get t "id" = obj_get t' "id" → t = t'.
Proof.
  induction l as [|x l IH]; [by inversion 2|].
  change (ids (x :: l)) with (obj_get x "id" :: ids l).
  rewrite NoDup_cons. intros [Hx Hl] Ht Ht' Hid.
  apply elem_of_cons in Ht as [->|Ht], Ht' as [->|Ht']; auto.
  - exfalso. apply Hx, elem_of_ids. by exists t'.
  - exfalso. apply Hx, elem_of_ids. by exists t.
Qed.

(** ** [byId] *)

Lemma byId_snoc (l : list obj) (t : obj) :
  byId (l ++ [t]) = <[obj_get t "id" := t]> (byId l).
Proof. unfold byId. by rewrite foldl_app. Qed.

Lemma byId_Some (l : list obj) (i : value) (t : obj) :
  byId l !! i = Some t → t ∈ l ∧ obj_get t "id" = i.
Proof.
  induction l as [|x l IH] using rev_ind; [done|].
  rewrite byId_snoc, lookup_insert, elem_of_app, list_elem_of_singleton.
  case_decide as E.
  - intros [= ->]. by split; [right|].
  - intros H. destruct (IH H) as [Hin Hid]. by split; [left|].
Qed.

Lemma ids_snoc (l : list obj) (x : obj) : ids (l ++ [x]) = ids l ++ [obj_get x "id"].
Proof. unfold ids. by rewrite fmap_app. Qed.

Lemma byId_None (l : list obj) (i : value) :
  byId l !! i = None ↔ i ∉ ids l.
Proof.
  induction l as [|x l IH] using rev_ind.
  - split; [intros _; apply not_elem_of_nil | done].
  - rewrite byId_snoc, lookup_insert, ids_snoc, elem_of_app, list_elem_of_singleton.
    case_decide as E.
    + split; [done|]. intros H. destruct H. by right.
    + rewrite IH. split.
      * intros H [H'|H']; [by apply H | by apply E].
      * intros H H'. apply H. by left.
Qed.

(** ** What each atomic part does to the hooks *)

Lemma toggleTask_begin_todos (item : obj) (s : State) :
  todos (exec (toggleTask_begin item) s) = toggle_optimistic item (todos s).
Proof. reflexivity. Qed.

Lemma toggleTask_settle_todos (item : obj) (o : outcome obj) (s : State) :
  todos (exec (toggleTask_settle item o) s) =
    match o with
    | Resolved updated => toggle_reconcile updated (todos s)
    | Rejected _ => toggle_rollback item (todos s)
    end.
Proof. by destruct o. Qed.

Lemma editTask_begin_found (id : value) (ttl : jsstring) (existing : obj) (s : State) :
  byId (todos s) !! id = Some existing →
  editTask_begin id ttl s =
    (Some (existing,
           {| method := "PATCH"; path := lit "/todos/" ++ to_string id;
              body := Some {[ "title" := VStr ttl ]} |}),
     {| todos := edit_optimistic id ttl (todos s); loading := loading s;
        err := []; title := title s; busy := busy s |}).
Proof.
  intros H. unfold editTask_begin, mbind, M_bind, setErr, hooks. simpl.
  by rewrite H.
Qed.

Lemma editTask_begin_missing (id : value) (ttl : jsstring) (s : State) :
  byId (todos s) !! id = None →
  editTask_begin id ttl s = (None, exec (setErr (lit "")) s).
Proof.
  intros H. unfold editTask_begin, mbind, M_bind, setErr, hooks, exec. simpl.
  by rewrite H.
Qed.

Lemma filter_all {A} (P : A → Prop) `{∀ x, Decision (P x)} (l : list A) :
  (∀ x, x ∈ l → P x) → filter P l = l.
Proof.
  induction l as [|x l IH]; [done|]. intros Hall.
  rewrite filter_cons_True by (apply Hall; left).
  f_equal. apply IH. intros y Hy. apply Hall. by right.
Qed.

(** ** Toggle *)

(** Whatever the collection is when the failure lands, the rollback leaves
    every entry of the toggled id with the [completed] of the toggled task. *)
Lemma toggle_rollback_completed (item : obj) (prev : list obj) (t : obj) :
  t ∈ toggle_rollback item prev →
  obj_get t "id" = obj_get item "id" →
  obj_get t "completed" = obj_get item "completed".
Proof.
  unfold toggle_rollback. intros (t0 & -> & _)%list_elem_of_fmap.
  destruct (strict_eq _ _) eqn:E.
  - intros _. apply obj_get_insert_eq.
  - by apply strict_eq_false in E.
Qed.

(** C1. Toggling a task of the collection and then seeing the update call
    fail leaves an entry with the task's id; every such entry has the
    [completed] the task had before the toggle, and, ids being unique, every
    entry that had this id keeps its place and has its own earlier
    [completed] again. *)
Theorem toggleTask_failure_restores_completed (s : State) (item : obj) (e : Error) :
  item ∈ todos s →
  let s' := exec (toggleTask_settle item (Rejected e)) (exec (toggleTask_begin item) s) in
  (∃ t, t ∈ todos s' ∧ obj_get t "id" = obj_get item "id") ∧
  (∀ t, t ∈ todos s' → obj_get t "id" = obj_get item "id" →
        obj_get t "completed" = obj_get item "completed") ∧
  (NoDup (ids (todos s)) →
   ∀ i t0, todos s !! i = Some t0 → obj_get t0 "id" = obj_get item "id" →
     ∃ t', todos s' !! i = Some t' ∧ obj_get t' "id" = obj_get t0 "id" ∧
           obj_get t' "completed" = obj_get t0 "completed").
Proof.
  intros Hin s'.
  assert (todos s' = toggle_rollback item (toggle_optimistic item (todos s))) as Hs'
    by reflexivity.
  assert (ids (todos s') = ids (todos s)) as Hids
    by (by rewrite Hs', ids_toggle_rollback, ids_toggle_optimistic).
  split; [|split].
  - apply elem_of_ids. rewrite Hids. apply elem_of_ids. by exists item.
  - intros t Ht. rewrite Hs' in Ht. by eapply toggle_rollback_completed.
  - intros Hnd i t0 Hi Hid.
    assert (t0 = item) as ->.
    { apply (unique_id_eq (todos s)); auto. by eapply list_elem_of_lookup_2. }
    assert (∃ t', todos s' !! i = Some t') as [t' Ht'].
    { apply lookup_lt_is_Some. rewrite <- (length_fmap (λ t, obj_get t "id")).
      fold (ids (todos s')). rewrite Hids. unfold ids. rewrite length_fmap.
      by eapply lookup_lt_Some. }
    exists t'. split; [done|].
    assert (obj_get t' "id" = obj_get item "id") as Hid'.
    { assert (ids (todos s') !! i = ids (todos s) !! i) as H by (by rewrite Hids).
      unfold ids in H. rewrite !list_lookup_fmap, Ht', Hi in H. simpl in H.
      by injection H. }
    split; [done|].
    apply (toggle_rollback_completed item (toggle_optimistic item (todos s))); [|done].
    rewrite <- Hs'. by eapply list_elem_of_lookup_2.
Qed.

Lemma toggleTask_failure_restores_completed_witness :
  let a : obj := {[ "id" := VNum 1; "title" := VStr (lit "A"); "completed" := VBool false ]} in
  let b : obj := {[ "id" := VNum 2; "title" := VStr (lit "B"); "completed" := VBool true ]} in
  let s := {| todos := [a; b]; loading := false; err := []; title := []; busy := false |} in
  let s' := exec (toggleTask_settle b (Rejected {| message := lit "boom" |}))
                 (exec (toggleTask_begin b) s) in
  ∃ t', todos s' !! 1 = Some t' ∧ obj_get t' "id" = obj_get b "id" ∧
        obj_get t' "completed" = obj_get b "completed".
Proof.
  intros a b s s'.
  assert (b ∈ todos s) as Hin by (right; left).
  assert (NoDup (ids (todos s))) as Hnd.
  { apply (bool_decide_unpack _). vm_compute. exact I. }
  exact (proj2 (proj2 (toggleTask_failure_restores_completed s b _ Hin)) Hnd 1 b
               eq_refl eq_refl).
Defined.

(** ** Edit *)

(** Whatever the collection is when the failure lands, the rollback leaves
    every entry of the edited id equal to the snapshot. *)
Lemma edit_rollback_snapshot (id : value) (existing : obj) (prev : list obj) (t : obj) :
  obj_get existing "id" = id →
  t ∈ edit_rollback id existing prev → obj_get t "id" = id → t = existing.
Proof.
  unfold edit_rollback. intros Hex (t0 & -> & _)%list_elem_of_fmap.
  destruct (strict_eq _ _) eqn:E; [done|].
  by apply strict_eq_false in E.
Qed.

Lemma ids_edit_rollback (id : value) (existing : obj) (l : list obj) :
  obj_get existing "id" = id → ids (edit_rollback id existing l) = ids l.
Proof.
  intros Hex. unfold ids, edit_rollback. rewrite <- list_fmap_compose.
  apply list_fmap_ext. intros _ t _. simpl.
  destruct (strict_eq _ _) eqn:E; [|done].
  apply strict_eq_true in E. congruence.
Qed.

(** With unique ids, rolling back the optimistic replacement gives the
    collection back. *)
Lemma edit_rollback_optimistic (id : value) (ttl : jsstring) (existing : obj) (l : list obj) :
  NoDup (ids l) → existing ∈ l → obj_get existing "id" = id →
  edit_rollback id existing (edit_optimistic id ttl l) = l.
Proof.
  intros Hnd Hin Hex. unfold edit_rollback, edit_optimistic.
  rewrite <- list_fmap_compose. rewrite <- (list_fmap_id l) at 2.
  apply list_fmap_ext. intros n t Ht. simpl.
  destruct (strict_eq (obj_get t "id") id) eqn:E.
  - rewrite obj_get_insert_ne, E by done.
    apply strict_eq_true in E.
    apply (unique_id_eq l); [done | done | by eapply list_elem_of_lookup_2 | congruence].
  - by rewrite E.
Qed.

(** C2. Editing an id of the collection takes a snapshot [existing], which
    is an entry of the collection with that id.  When the update call fails,
    every entry with the id is the snapshot itself, all its properties
    included, whatever happened to the collection in between; there still is
    such an entry, and with unique ids the collection is the one before the
    edit. *)
Theorem editTask_failure_restores_snapshot (s : State) (id : value) (ttl : jsstring) (e : Error) :
  id ∈ ids (todos s) →
  ∃ existing req,
    eval (editTask_begin id ttl) s = Some (existing, req) ∧
    existing ∈ todos s ∧ obj_get existing "id" = id ∧
    (∀ mid t, t ∈ todos (exec (editTask_settle id existing (Rejected e)) mid) →
              obj_get t "id" = id → t = existing) ∧
    let s' := exec (editTask_settle id existing (Rejected e))
                   (exec (editTask_begin id ttl) s) in
    (∃ t, t ∈ todos s' ∧ obj_get t "id" = id) ∧
    (NoDup (ids (todos s)) → todos s' = todos s).
Proof.
  intros Hid.
  destruct (byId (todos s) !! id) as [existing|] eqn:Hby;
    [|by apply byId_None in Hby].
  destruct (byId_Some _ _ _ Hby) as [Hin Hex].
  exists existing. eexists.
  unfold eval, exec. rewrite (editTask_begin_found _ ttl _ _ Hby). simpl.
  split; [reflexivity|]. split; [done|]. split; [done|]. split; [|split].
  - intros mid t. by apply edit_rollback_snapshot.
  - apply elem_of_ids. by rewrite ids_edit_rollback, ids_edit_optimistic.
  - intros Hnd. by apply edit_rollback_optimistic.
Qed.

Lemma editTask_failure_restores_snapshot_witness :
  let a : obj := {[ "id" := VNum 1; "title" := VStr (lit "A"); "completed" := VBool false ]} in
  let b : obj := {[ "id" := VNum 2; "title" := VStr (lit "B"); "completed" := VBool true ]} in
  let s := {| todos := [a; b]; loading := false; err := []; title := []; busy := false |} in
  VNum 2 ∈ ids (todos s) ∧
  ∃ existing req,
    eval (editTask_begin (VNum 2) (lit "C")) s = Some (existing, req) ∧
    todos (exec (editTask_settle (VNum 2) existing (Rejected {| message := lit "boom" |}))
                (exec (editTask_begin (VNum 2) (lit "C")) s)) = [a; b].
Proof.
  intros a b s.
  assert (VNum 2 ∈ ids (todos s)) as Hin by (right; left).
  split; [exact Hin|].
  destruct (editTask_failure_restores_snapshot s (VNum 2) (lit "C")
              {| message := lit "boom" |} Hin)
    as (existing & req & Hev & _ & _ & _ & _ & Hall).
  exists existing, req. split; [exact Hev|].
  apply Hall. apply (bool_decide_unpack _). vm_compute. exact I.
Defined.

(** ** Two toggles in flight *)

Lemma toggleTask_begin_ids (item : obj) (s : State) :
  ids (todos (exec (toggleTask_begin item) s)) = ids (todos s).
Proof. rewrite toggleTask_begin_todos. apply ids_toggle_optimistic. Qed.

Lemma toggleTask_settle_ids (item : obj) (o : outcome obj) (s : State) :
  ids (todos (exec (toggleTask_settle item o) s)) = ids (todos s).
Proof.
  rewrite toggleTask_settle_todos.
  destruct o; [apply ids_toggle_reconcile | apply ids_toggle_rollback].
Qed.

Lemma interleaving_Forall {A} (P : A → Prop) (a b c : list A) :
  interleaving a b c → Forall P a → Forall P b → Forall P c.
Proof.
  induction 1 as [|x a b c _ IH|x a b c _ IH]; intros Ha Hb.
  - constructor.
  - inversion Ha; subst. constructor; auto.
  - inversion Hb; subst. constructor; auto.
Qed.

Lemma run_keeps_ids (sched : list (State → State)) (s : State) :
  Forall (λ f, ∀ s, ids (todos (f s)) = ids (todos s)) sched →
  ids (todos (run sched s)) = ids (todos s).
Proof.
  unfold run. intros H. revert s.
  induction H as [|f sched Hf _ IH]; intros s; simpl; [done|].
  by rewrite IH, Hf.
Qed.

Lemma toggle_parts_keep_ids (item : obj) (o : outcome obj) :
  Forall (λ f, ∀ s, ids (todos (f s)) = ids (todos s)) (toggle_parts item o).
Proof.
  unfold toggle_parts. repeat constructor.
  - apply toggleTask_begin_ids.
  - apply toggleTask_settle_ids.
Qed.

(** C4. Take a collection with exactly one entry of id [i] and two toggles
    on that id, each settling either way (reconciliation with whatever task
    the server returned, or rollback).  Whatever the order in which their
    optimistic flips and settlements are applied, the collection ends with
    exactly one entry of id [i]; indeed the ids of the collection and their
    order never change. *)
Theorem toggle_twice_keeps_one_entry (s : State) (i : value) (item1 item2 : obj)
    (o1 o2 : outcome obj) (sched : list (State → State)) :
  count_id i (todos s) = 1 →
  obj_get item1 "id" = i → obj_get item2 "id" = i →
  interleaving (toggle_parts item1 o1) (toggle_parts item2 o2) sched →
  count_id i (todos (run sched s)) = 1 ∧ ids (todos (run sched s)) = ids (todos s).
Proof.
  intros Hone _ _ Hsched.
  assert (ids (todos (run sched s)) = ids (todos s)) as Hids.
  { apply run_keeps_ids.
    eapply interleaving_Forall; [exact Hsched | apply toggle_parts_keep_ids ..]. }
  split; [|done]. by rewrite count_id_ids, Hids, <- count_id_ids.
Qed.

Lemma toggle_twice_keeps_one_entry_witness :
  let a : obj := {[ "id" := VNum 1; "title" := VStr (lit "A"); "completed" := VBool false ]} in
  let a' : obj := {[ "id" := VNum 1; "title" := VStr (lit "A"); "completed" := VBool true ]} in
  let b : obj := {[ "id" := VNum 2; "title" := VStr (lit "B"); "completed" := VBool true ]} in
  let s := {| todos := [a; b]; loading := false; err := []; title := []; busy := false |} in
  let boom := Rejected {| message := lit "boom" |} in
  count_id (VNum 1)
    (todos (run [exec (toggleTask_begin a); exec (toggleTask_begin a');
                 exec (toggleTask_settle a' (Resolved a)); exec (toggleTask_settle a boom)] s))
    = 1.
Proof.
  intros a a' b s boom.
  refine (proj1 (toggle_twice_keeps_one_entry s (VNum 1) a a' boom (Resolved a) _
                   _ _ _ _)).
  - vm_compute. reflexivity.
  - reflexivity.
  - reflexivity.
  - apply interleaving_left, interleaving_right, interleaving_right,
      interleaving_left, interleaving_nil.
Defined.

(** ** Delete *)

(** C5. In a collection with unique ids, a successful delete of the id of an
    entry [t] removes [t] and nothing else: the entries before it and the
    entries after it stay as they are, in their order. *)
Theorem deleteTask_removes_exactly_one {J} (s : State) (id : value) (t : obj) (r : J) :
  NoDup (ids (todos s)) → t ∈ todos s → obj_get t "id" = id →
  ∃ l1 l2, todos s = l1 ++ t :: l2 ∧
           todos (exec (deleteTask_settle id (Resolved r)) s) = l1 ++ l2.
Proof.
  intros Hnd Hin Hid.
  destruct (list_elem_of_split _ _ Hin) as (l1 & l2 & Hs).
  exists l1, l2. split; [done|].
  change (todos (exec (deleteTask_settle id (Resolved r)) s))
    with (filter (λ t, negb (strict_eq (obj_get t "id") id)) (todos s)).
  rewrite Hs in Hnd |- *.
  assert (∀ x, x ∈ l1 ++ l2 → negb (strict_eq (obj_get x "id") id)) as Hkeep.
  { intros x Hx. apply negb_True, Is_true_false_2, strict_eq_false. intros Hxid.
    assert (x = t) as ->.
    { apply (unique_id_eq (l1 ++ t :: l2)); [done | | | congruence].
      - apply elem_of_app in Hx as [?|?]; apply elem_of_app; [by left | by right; right].
      - apply elem_of_app. right. left. }
    unfold ids in Hnd. rewrite fmap_app, fmap_cons in Hnd.
    apply NoDup_app in Hnd as (_ & Hl1 & Hl2). apply NoDup_cons in Hl2 as [Hl2 _].
    apply elem_of_app in Hx as [Hx|Hx].
    - apply (Hl1 (obj_get t "id")); [by apply elem_of_ids; exists t | left].
    - apply Hl2. apply elem_of_ids. by exists t. }
  rewrite filter_app, filter_cons_False.
  - rewrite <- filter_app. by apply filter_all.
  - rewrite negb_True. intros H. apply H, Is_true_true, strict_eq_true. done.
Qed.

Lemma deleteTask_removes_exactly_one_witness :
  let a : obj := {[ "id" := VNum 1; "title" := VStr (lit "A"); "completed" := VBool false ]} in
  let b : obj := {[ "id" := VNum 2; "title" := VStr (lit "B"); "completed" := VBool true ]} in
  let c : obj := {[ "id" := VNum 3; "title" := VStr (lit "C"); "completed" := VBool true ]} in
  let s := {| todos := [a; b; c]; loading := false; err := []; title := []; busy := false |} in
  ∃ l1 l2, todos s = l1 ++ b :: l2 ∧
           todos (exec (deleteTask_settle (VNum 2) (Resolved ())) s) = l1 ++ l2.
Proof.
  intros a b c s.
  apply (deleteTask_removes_exactly_one s (VNum 2) b ()).
  - apply (bool_decide_unpack _). vm_compute. exact I.
  - right; left.
  - reflexivity.
Defined.

(** Deleting an id that is not there removes nothing. *)
Lemma deleteTask_absent_id {J} (s : State) (id : value) (r : J) :
  id ∉ ids (todos s) →
  todos (exec (deleteTask_settle id (Resolved r)) s) = todos s.
Proof.
  intros Hi.
  change (todos (exec (deleteTask_settle id (Resolved r)) s))
    with (filter (λ t, negb (strict_eq (obj_get t "id") id)) (todos s)).
  apply filter_all. intros x Hx.
  apply negb_True, Is_true_false_2, strict_eq_false. intros Hxid.
  apply Hi, elem_of_ids. by exists x.
Qed.

(** ** Add *)

(** C6. [addTask] leaves the collection as it is until the create call has
    resolved, and then puts the returned task in front of the collection as
    it is at that moment, every earlier entry unchanged and in place. *)
Theorem addTask_prepends (s mid : State) (ttl : jsstring) (created : obj) :
  todos (exec (addTask_begin ttl) s) = todos s ∧
  todos (exec (addTask_settle (Resolved created)) mid) = created :: todos mid ∧
  todos (exec (addTask_settle (Resolved created)) (exec (addTask_begin ttl) s))
    = created :: todos s.
Proof. done. Qed.

(** ** An id that is not in the collection *)

(** C7, as the code has it.  On a collection without the id, the optimistic
    flip and the rollback of a toggle are the identity, and so is what the
    two parts of a failing toggle do to the collection.  [editTask] on such
    an id returns before any update: no request, the collection and every
    other hook as they were, except that the error message has been
    cleared first. *)
Theorem absent_id_is_left_alone (s : State) (item : obj) (id : value)
    (ttl : jsstring) (e : Error) :
  (obj_get item "id" ∉ ids (todos s) →
     toggle_optimistic item (todos s) = todos s ∧
     toggle_rollback item (todos s) = todos s ∧
     todos (exec (toggleTask_begin item) s) = todos s ∧
     todos (exec (toggleTask_settle item (Rejected e)) s) = todos s) ∧
  (id ∉ ids (todos s) →
     eval (editTask_begin id ttl) s = None ∧
     exec (editTask_begin id ttl) s =
       {| todos := todos s; loading := loading s; err := [];
          title := title s; busy := busy s |}).
Proof.
  split.
  - intros Hi.
    assert (toggle_optimistic item (todos s) = todos s) as Hopt
      by (by apply fmap_absent_id).
    assert (toggle_rollback item (todos s) = todos s) as Hrb
      by (by apply fmap_absent_id).
    by rewrite toggleTask_begin_todos, toggleTask_settle_todos.
  - intros Hi. apply byId_None in Hi.
    unfold eval, exec. by rewrite (editTask_begin_missing _ ttl _ Hi).
Qed.

Lemma absent_id_is_left_alone_witness :
  let a : obj := {[ "id" := VNum 1; "title" := VStr (lit "A"); "completed" := VBool false ]} in
  let gone : obj := {[ "id" := VNum 7; "title" := VStr (lit "G"); "completed" := VBool true ]} in
  let s := {| todos := [a]; loading := false; err := lit "old"; title := []; busy := false |} in
  todos (exec (toggleTask_settle gone (Rejected {| message := lit "boom" |})) s) = [a] ∧
  exec (editTask_begin (VNum 7) (lit "H")) s =
    {| todos := [a]; loading := false; err := []; title := []; busy := false |}.
Proof.
  intros a gone s.
  assert (VNum 7 ∉ ids (todos s)) as Hi.
  { apply (bool_decide_unpack _). vm_compute. exact I. }
  destruct (absent_id_is_left_alone s gone (VNum 7) (lit "H") {| message := lit "boom" |})
    as [Htoggle Hedit].
  split.
  - exact (proj2 (proj2 (proj2 (Htoggle Hi)))).
  - exact (proj2 (Hedit Hi)).
Defined.

(** [editTask] on an absent id is not without effect: a pending error
    message is gone afterwards. *)
Lemma editTask_absent_id_clears_err :
  let s := {| todos := []; loading := false; err := lit "boom"; title := []; busy := false |} in
  (VNum 1 ∉ ids (todos s)) ∧
  exec (editTask_begin (VNum 1) (lit "x")) s ≠ s ∧
  ¬ (∀ (s : State) (id : value) (ttl : jsstring),
       id ∉ ids (todos s) → exec (editTask_begin id ttl) s = s).
Proof.
  intros s.
  assert (VNum 1 ∉ ids (todos s)) as Hi by apply not_elem_of_nil.
  assert (exec (editTask_begin (VNum 1) (lit "x")) s ≠ s) as Hne.
  { intros H. apply (f_equal err) in H. vm_compute in H. discriminate H. }
  split; [done|]. split; [done|].
  intros Hall. apply Hne. by apply Hall.
Qed.

(** ** Submitting a blank title *)

(** C8. When the title in the input trims to the empty string, [submit]
    returns at once: no request is made and no hook changes, the error
    message included. *)
Theorem submit_blank_title_is_ignored (s : State) :
  trim (title s) = [] →
  eval submit_begin s = None ∧ exec submit_begin s = s.
Proof.
  intros Htrim. unfold eval, exec, submit_begin, mbind, M_bind, hooks. simpl.
  by rewrite Htrim.
Qed.

Lemma submit_blank_title_is_ignored_witness :
  let s := {| todos := []; loading := false; err := lit "old";
              title := lit "  "; busy := false |} in
  trim (title s) = [] ∧ eval submit_begin s = None ∧ exec submit_begin s = s.
Proof.
  intros s.
  assert (trim (title s) = []) as H by reflexivity.
  split; [exact H|]. exact (submit_blank_title_is_ignored s H).
Defined.

(** A title with something to keep does make the create request. *)
Example submit_milk :
  (eval submit_begin {| todos := []; loading := false; err := lit "old";
                        title := lit " milk "; busy := false |})
  = Some {| method := "POST"; path := lit "/todos";
            body := Some {[ "title" := VStr (lit "milk") ]} |}.
Proof. reflexivity. Qed.

(** ** What a toggle leaves alone *)

(** Both the optimistic flip and the rollback map each entry to itself or to
    the same object with [completed] set anew. *)
Lemma toggle_updater_frame (item : obj) (g : obj → value) (prev : list obj) (n : nat) (t : obj) :
  prev !! n = Some t →
  ∃ t', ((λ t, if strict_eq (obj_get t "id") (obj_get item "id")
               then <["completed" := g t]> t else t) <$> prev) !! n = Some t' ∧
        (obj_get t "id" ≠ obj_get item "id" → t' = t) ∧
        (obj_get t "id" = obj_get item "id" → t' = <["completed" := g t]> t) ∧
        (∀ k, k ≠ "completed" → t' !! k = t !! k).
Proof.
  intros Hn. rewrite list_lookup_fmap, Hn. simpl. eexists. split; [reflexivity|].
  destruct (strict_eq _ _) eqn:E.
  - apply strict_eq_true in E. split; [done|]. split; [done|].
    intros k Hk. by rewrite lookup_insert_ne.
  - apply strict_eq_false in E. done.
Qed.

(** C10. The optimistic flip and the rollback of a toggle keep the length
    of the collection and, at every position, either keep the entry (always
    so when its id is not the toggled one) or change its [completed] only:
    every other property reads as before.  The rollback writes the toggled
    task's [completed] into the entry as it is then, it does not put back
    the task: when an edit of the same id has replaced the title in between,
    every entry of that id still has the new title after the rollback. *)
Theorem toggle_changes_completed_only (item : obj) (prev : list obj) :
  (length (toggle_optimistic item prev) = length prev ∧
   length (toggle_rollback item prev) = length prev) ∧
  (∀ n t, prev !! n = Some t →
     ∃ t1 t2, toggle_optimistic item prev !! n = Some t1 ∧
              toggle_rollback item prev !! n = Some t2 ∧
              (obj_get t "id" ≠ obj_get item "id" → t1 = t ∧ t2 = t) ∧
              (obj_get t "id" = obj_get item "id" →
                 t1 = <["completed" := VBool (negb (truthy (obj_get t "completed")))]> t ∧
                 t2 = <["completed" := obj_get item "completed"]> t) ∧
              (∀ k, k ≠ "completed" → t1 !! k = t !! k ∧ t2 !! k = t !! k)) ∧
  (∀ (s : State) (ttl : jsstring) (e : Error),
     todos s = prev →
     let s1 := exec (toggleTask_begin item) s in
     let s2 := exec (editTask_begin (obj_get item "id") ttl) s1 in
     let s3 := exec (toggleTask_settle item (Rejected e)) s2 in
     ∀ t, t ∈ todos s3 → obj_get t "id" = obj_get item "id" →
          obj_get t "title" = VStr ttl).
Proof.
  split; [|split].
  - unfold toggle_optimistic, toggle_rollback. by rewrite !length_fmap.
  - intros n t Hn.
    destruct (toggle_updater_frame item
                (λ t, VBool (negb (truthy (obj_get t "completed")))) prev n t Hn)
      as (t1 & H1 & Hne1 & Heq1 & Hk1).
    destruct (toggle_updater_frame item (λ _, obj_get item "completed") prev n t Hn)
      as (t2 & H2 & Hne2 & Heq2 & Hk2).
    exists t1, t2. repeat split; auto.
  - intros s ttl e Hs s1 s2 s3 t Ht Hid.
    destruct (byId (todos s1) !! obj_get item "id") as [existing|] eqn:Hby.
    + assert (todos s3 = toggle_rollback item
                (edit_optimistic (obj_get item "id") ttl (todos s1))) as Hs3.
      { unfold s3, s2, exec. by rewrite (editTask_begin_found _ ttl _ _ Hby). }
      rewrite Hs3 in Ht. unfold toggle_rollback in Ht.
      apply list_elem_of_fmap in Ht as (t0 & -> & Ht0).
      unfold edit_optimistic in Ht0.
      apply list_elem_of_fmap in Ht0 as (t00 & -> & _).
      destruct (strict_eq (obj_get t00 "id") (obj_get item "id")) eqn:E.
      * rewrite obj_get_insert_ne, E in Hid |- * by done.
        by rewrite obj_get_insert_ne, obj_get_insert_eq.
      * rewrite E in Hid. by apply strict_eq_false in E.
    + exfalso.
      assert (todos s3 = toggle_rollback item (todos s1)) as Hs3.
      { unfold s3, s2, exec. by rewrite (editTask_begin_missing _ ttl _ Hby). }
      apply byId_None in Hby. apply Hby.
      rewrite <- (ids_toggle_rollback item), <- Hs3. apply elem_of_ids. by exists t.
Qed.

Lemma toggle_changes_completed_only_witness :
  let a : obj := {[ "id" := VNum 1; "title" := VStr (lit "A"); "completed" := VBool false ]} in
  let b : obj := {[ "id" := VNum 2; "title" := VStr (lit "B"); "completed" := VBool true ]} in
  let s := {| todos := [a; b]; loading := false; err := []; title := []; busy := false |} in
  let s1 := exec (toggleTask_begin a) s in
  let s2 := exec (editTask_begin (obj_get a "id") (lit "A2")) s1 in
  let s3 := exec (toggleTask_settle a (Rejected {| message := lit "boom" |})) s2 in
  let a2 : obj := {[ "id" := VNum 1; "title" := VStr (lit "A2"); "completed" := VBool false ]} in
  a2 ∈ todos s3 ∧ obj_get a2 "title" = VStr (lit "A2").
Proof.
  intros a b s s1 s2 s3 a2.
  assert (a2 ∈ todos s3) as Hin.
  { apply (bool_decide_unpack _). vm_compute. exact I. }
  split; [exact Hin|].
  exact (proj2 (proj2 (toggle_changes_completed_only a [a; b])) s (lit "A2")
               {| message := lit "boom" |} eq_refl a2 Hin eq_refl).
Defined.

(** ** The error message *)

Lemma editTask_begin_err (id : value) (ttl : jsstring) (s : State) :
  err (exec (editTask_begin id ttl) s) = [].
Proof.
  unfold exec. destruct (byId (todos s) !! id) as [existing|] eqn:Hby.
  - by rewrite (editTask_begin_found _ ttl _ _ Hby).
  - by rewrite (editTask_begin_missing _ ttl _ Hby).
Qed.

Lemma displayable_str_or (a b : jsstring) : b ≠ [] → displayable (str_or a b) = true.
Proof.
  intros Hb. unfold displayable. simpl.
  apply negb_true_iff, bool_decide_eq_false. by apply str_or_nonempty.
Qed.

(** C3, as the code has it.  Each of load, add, toggle, edit and delete has
    emptied the error message by the time its synchronous part is over.  A
    failing update call of a toggle or of an edit sets a message that [App]
    displays: the message of the error, or the handler's own text when that
    message is empty. *)
Theorem error_message_policy (s mid : State) (ttl : jsstring) (item : obj)
    (id : value) (existing : obj) (e : Error) :
  (err (exec load_begin s) = [] ∧
   err (exec (addTask_begin ttl) s) = [] ∧
   err (exec (toggleTask_begin item) s) = [] ∧
   err (exec (editTask_begin id ttl) s) = [] ∧
   err (exec (deleteTask_begin id) s) = []) ∧
  (let s' := exec (toggleTask_settle item (Rejected e)) mid in
   err s' = str_or (message e) (lit "Failed to toggle task") ∧
   displayable (err s') = true) ∧
  (let s' := exec (editTask_settle id existing (Rejected e)) mid in
   err s' = str_or (message e) (lit "Failed to update task") ∧
   displayable (err s') = true).
Proof.
  split; [|split].
  - repeat split; try reflexivity. apply editTask_begin_err.
  - split; [reflexivity|]. by apply displayable_str_or.
  - split; [reflexivity|]. by apply displayable_str_or.
Qed.

(** A failing create or delete call sets no message: [addTask] and
    [deleteTask] have no [catch], the rejection goes to the caller and the
    message stays as empty as the handler's first line made it; [submit],
    the caller of [addTask], has no [catch] either. *)
Lemma create_delete_failure_sets_no_message :
  let s := {| todos := []; loading := false; err := lit "old";
              title := lit "milk"; busy := false |} in
  let boom := {| message := lit "boom" |} in
  (let s1 := exec (addTask_begin (lit "milk")) s in
   eval (addTask_settle (Rejected boom)) s1 = Rejected boom ∧
   err (exec (addTask_settle (Rejected boom)) s1) = [] ∧
   displayable (err (exec (addTask_settle (Rejected boom)) s1)) = false) ∧
  (let s1 := exec submit_begin s in
   eval (submit_settle (Rejected boom)) s1 = Rejected boom ∧
   err (exec (submit_settle (Rejected boom)) s1) = []) ∧
  (let s1 := exec (deleteTask_begin (VNum 1)) s in
   eval (deleteTask_settle (VNum 1) (@Rejected unit boom)) s1 = Rejected boom ∧
   err (exec (deleteTask_settle (VNum 1) (@Rejected unit boom)) s1) = [] ∧
   displayable (err (exec (deleteTask_settle (VNum 1) (@Rejected unit boom)) s1)) = false) ∧
  ¬ (∀ (s : State) (ttl : jsstring) (e : Error),
       displayable (err (exec (addTask_settle (Rejected e)) (exec (addTask_begin ttl) s)))
       = true).
Proof.
  intros s boom. repeat split.
  intros H. specialize (H s (lit "milk") boom). discriminate H.
Qed.

(** What a failing create or delete does instead: the rejection is handed
    on and no hook changes. *)
Lemma addTask_failure_propagates (mid : State) (e : Error) :
  addTask_settle (Rejected e) mid = (Rejected e, mid).
Proof. reflexivity. Qed.

Lemma deleteTask_failure_propagates {J} (mid : State) (id : value) (e : Error) :
  deleteTask_settle id (@Rejected J e) mid = (Rejected e, mid).
Proof. reflexivity. Qed.

(** Settling the initial load while the component is mounted. *)
Lemma load_settle_failure (mid : State) (e : Error) :
  let s' := exec (load_settle true (Rejected e)) mid in
  todos s' = todos mid ∧ loading s' = false ∧
  err s' = str_or (message e) (lit "Failed to load tasks").
Proof. done. Qed.

Lemma load_settle_success (mid : State) (list : list obj) :
  let s' := exec (load_settle true (Resolved (Some list))) mid in
  todos s' = list ∧ loading s' = false ∧ err s' = err mid.
Proof. done. Qed.

(** * Further properties of the code *)

(** ** [apiFetch] beyond the error and 204 paths *)

(** [apiFetch] resolves for 2xx responses only: with [null] and no body
    read for 204, and otherwise with what [res.json()] resolved to, the body
    having been read once, as JSON. *)
Theorem apiFetch_resolves_only_on_2xx {J} (null : J) (res : Response J)
    (reads : list body_read) (j : J) :
  apiFetch null (Resolved res) = (reads, Resolved j) →
  (200 ≤ status res ≤ 299)%Z ∧
  ((status res = 204%Z ∧ j = null ∧ reads = []) ∨
   (status res ≠ 204%Z ∧ json res = Resolved j ∧ reads = [ReadJson])).
Proof.
  unfold apiFetch, ok. case_bool_decide as Hok; simpl; [|discriminate].
  case_bool_decide as H204; intros [= <- Hj]; (split; [done|]).
  - left. by split.
  - right. by split.
Qed.

Lemma apiFetch_resolves_only_on_2xx_witness :
  let res := {| status := 200; text := Resolved (lit "{}");
                json := Resolved (Some (∅ : obj)) |} in
  (200 ≤ status res ≤ 299)%Z ∧
  ((status res = 204%Z ∧ Some (∅ : obj) = None ∧ [ReadJson] = []) ∨
   (status res ≠ 204%Z ∧ json res = Resolved (Some ∅) ∧ [ReadJson] = [ReadJson])).
Proof.
  intros res.
  exact (apiFetch_resolves_only_on_2xx None res [ReadJson] (Some ∅) eq_refl).
Defined.

(** A network failure of [fetch] is handed on as it is, and on no path does
    [apiFetch] read the body of a response more than once. *)
Theorem apiFetch_reads_body_at_most_once {J} (null : J) (fetched : outcome (Response J)) :
  length (apiFetch null fetched).1 ≤ 1 ∧
  (∀ e, fetched = Rejected e → apiFetch null fetched = ([], Rejected e)) ∧
  (∀ res, fetched = Resolved res → (200 ≤ status res ≤ 299)%Z → status res ≠ 204%Z →
          apiFetch null fetched = ([ReadJson], json res)).
Proof.
  split; [|split].
  - destruct fetched as [res|e]; simpl; [|lia].
    destruct (negb (ok res)); simpl; [lia|].
    case_bool_decide; simpl; lia.
  - by intros e ->.
  - intros res -> Hok H204. unfold apiFetch, ok.
    rewrite bool_decide_eq_true_2 by done. simpl.
    by rewrite bool_decide_eq_false_2.
Qed.

Lemma apiFetch_reads_body_at_most_once_witness :
  let bad : outcome (option obj) := Rejected {| message := lit "Unexpected token <" |} in
  let res := {| status := 201; text := Resolved (lit "<html>"); json := bad |} in
  apiFetch None (Resolved res) = ([ReadJson], bad) ∧
  apiFetch (None : option obj) (Rejected {| message := lit "Failed to fetch" |})
    = ([], Rejected {| message := lit "Failed to fetch" |}).
Proof.
  intros bad res. split.
  - apply (proj2 (proj2 (apiFetch_reads_body_at_most_once None (Resolved res))) res eq_refl);
      simpl; lia.
  - exact (proj1 (proj2 (apiFetch_reads_body_at_most_once None (Rejected _))) _ eq_refl).
Defined.

Lemma apiFetch_non_2xx {J} (null : J) (res : Response J) :
  ¬ (200 ≤ status res ≤ 299)%Z →
  ∃ m, apiFetch null (Resolved res) = ([ReadText], Rejected {| message := m |}) ∧ m ≠ [].
Proof.
  intros Hst. unfold apiFetch, ok. rewrite bool_decide_eq_false_2 by done. simpl.
  eexists. split; [reflexivity|]. by apply str_or_nonempty.
Qed.

(** A response outside 2xx to the update call of a toggle or of an edit puts
    the message of [apiFetch] itself on display, the body text or the status
    line: the handlers' own texts are never used for such a response. *)
Theorem http_error_reaches_the_user (res : Response obj) (null item existing : obj)
    (id : value) (mid : State) :
  ¬ (200 ≤ status res ≤ 299)%Z →
  ∃ m, (apiFetch null (Resolved res)).2 = Rejected {| message := m |} ∧
       displayable m = true ∧
       (∀ t, text res = Resolved t → t ≠ [] → m = t) ∧
       err (exec (toggleTask_settle item (apiFetch null (Resolved res)).2) mid) = m ∧
       err (exec (editTask_settle id existing (apiFetch null (Resolved res)).2) mid) = m.
Proof.
  intros Hst. destruct (apiFetch_non_2xx null res Hst) as (m & Hm & Hne).
  exists m. rewrite Hm. simpl. split; [done|]. split; [|split; [|split]].
  - unfold displayable. simpl. by rewrite bool_decide_eq_false_2.
  - intros t Ht Htne. unfold apiFetch, ok in Hm.
    rewrite bool_decide_eq_false_2 in Hm by done. simpl in Hm. rewrite Ht in Hm.
    rewrite str_or_left in Hm by done. by injection Hm.
  - change (str_or m (lit "Failed to toggle task") = m). by apply str_or_left.
  - change (str_or m (lit "Failed to update task") = m). by apply str_or_left.
Qed.

Lemma http_error_reaches_the_user_witness :
  let res : Response obj :=
    {| status := 422; text := Resolved (lit "title too long");
       json := Rejected {| message := lit "Unexpected token t" |} |} in
  let a : obj := {[ "id" := VNum 1; "title" := VStr (lit "A"); "completed" := VBool false ]} in
  let mid := {| todos := [a]; loading := false; err := []; title := []; busy := false |} in
  ∃ m, m = lit "title too long" ∧
       err (exec (toggleTask_settle a (apiFetch ∅ (Resolved res)).2) mid) = m.
Proof.
  intros res a mid.
  destruct (http_error_reaches_the_user res ∅ a a (VNum 1) mid ltac:(simpl; lia))
    as (m & _ & _ & Hm & Htoggle & _).
  exists m. split; [|exact Htoggle].
  apply (Hm (lit "title too long") eq_refl). vm_compute. discriminate.
Defined.

(** ** [trim] *)

Lemma trimStart_split (s : jsstring) :
  ∃ pre, s = pre ++ trimStart s ∧ Forall (λ c, is_white_space c = true) pre.
Proof.
  induction s as [|c s (pre & Hs & Hpre)]; simpl.
  - by exists [].
  - destruct (is_white_space c) eqn:Hc.
    + exists (c :: pre). split; [by rewrite <- app_comm_cons, <- Hs | by constructor].
    + by exists [].
Qed.

Lemma trimStart_head (s : jsstring) (c : N) :
  head (trimStart s) = Some c → is_white_space c = false.
Proof.
  induction s as [|d s IH]; simpl; [done|].
  destruct (is_white_space d) eqn:Hd; [done|]. simpl. by intros [= <-].
Qed.

Lemma trimEnd_split (s : jsstring) :
  ∃ post, s = trimEnd s ++ post ∧ Forall (λ c, is_white_space c = true) post.
Proof.
  unfold trimEnd. destruct (trimStart_split (reverse s)) as (pre & Hs & Hpre).
  exists (reverse pre). split; [|by apply Forall_reverse].
  by rewrite <- reverse_app, <- Hs, reverse_involutive.
Qed.

Lemma trimEnd_last (s : jsstring) (c : N) :
  last (trimEnd s) = Some c → is_white_space c = false.
Proof. unfold trimEnd. rewrite last_reverse. apply trimStart_head. Qed.

(** [trim] cuts a run of whitespace off each end and nothing else. *)
Lemma trim_split (s : jsstring) :
  ∃ pre post, s = pre ++ trim s ++ post ∧
              Forall (λ c, is_white_space c = true) pre ∧
              Forall (λ c, is_white_space c = true) post.
Proof.
  unfold trim. destruct (trimStart_split s) as (pre & Hs & Hpre).
  destruct (trimEnd_split (trimStart s)) as (post & Ht & Hpost).
  exists pre, post. by rewrite <- Ht.
Qed.

Lemma trim_head (s : jsstring) (c : N) :
  head (trim s) = Some c → is_white_space c = false.
Proof.
  unfold trim. intros Hc. apply (trimStart_head s).
  destruct (trimEnd_split (trimStart s)) as (post & Ht & _).
  rewrite Ht. apply head_app_Some. by left.
Qed.

(** ** [NewTaskInput.submit] when it does submit *)

Lemma submit_begin_Some (s : State) (r : request) :
  eval submit_begin s = Some r →
  trim (title s) ≠ [] ∧ busy s = false ∧ loading s = false ∧
  submit_begin s =
    (Some {| method := "POST"; path := lit "/todos";
             body := Some {[ "title" := VStr (trim (title s)) ]} |},
     {| todos := todos s; loading := loading s; err := [];
        title := title s; busy := true |}).
Proof.
  unfold eval, submit_begin, mbind, M_bind, hooks. simpl.
  case_bool_decide as Ht; simpl; [done|].
  destruct (busy s) eqn:Hb; simpl; [done|].
  destruct (loading s) eqn:Hl; simpl; [done|].
  intros _. repeat split; [done..|]. unfold mret, M_ret. by rewrite Hl.
Qed.

(** Whenever [submit] makes a request, it is the create request for the
    trimmed title: that title is not empty, neither starts nor ends with
    whitespace, and is the typed text less a run of whitespace at each end.
    The input was neither busy nor disabled. *)
Theorem submit_sends_the_trimmed_title (s : State) (r : request) :
  eval submit_begin s = Some r →
  r = {| method := "POST"; path := lit "/todos";
         body := Some {[ "title" := VStr (trim (title s)) ]} |} ∧
  trim (title s) ≠ [] ∧
  (∀ c, head (trim (title s)) = Some c → is_white_space c = false) ∧
  (∀ c, last (trim (title s)) = Some c → is_white_space c = false) ∧
  (∃ pre post, title s = pre ++ trim (title s) ++ post ∧
               Forall (λ c, is_white_space c = true) pre ∧
               Forall (λ c, is_white_space c = true) post) ∧
  busy s = false ∧ loading s = false.
Proof.
  intros Hr. destruct (submit_begin_Some s r Hr) as (Hne & Hb & Hl & Heq).
  unfold eval in Hr. rewrite Heq in Hr. simpl in Hr. injection Hr as <-.
  split; [done|]. split; [done|]. split; [apply trim_head|].
  split; [apply trimEnd_last|]. split; [apply trim_split|]. done.
Qed.

Lemma submit_sends_the_trimmed_title_witness :
  let s := {| todos := []; loading := false; err := lit "old";
              title := lit "  buy milk "; busy := false |} in
  ∃ r, eval submit_begin s = Some r ∧ body r = Some {[ "title" := VStr (lit "buy milk") ]}.
Proof.
  intros s. eexists. split; [reflexivity|].
  destruct (submit_sends_the_trimmed_title s _ eq_refl) as [Hr _].
  exact (f_equal body Hr).
Defined.

(** A busy or disabled input ignores [submit]; and a [submit] that made its
    request leaves the input busy, so that a second [submit] before the
    first one settles is ignored: one request per task typed. *)
Theorem submit_guards_against_resubmission (s : State) :
  (busy s = true ∨ loading s = true → submit_begin s = (None, s)) ∧
  (∀ r, eval submit_begin s = Some r →
        let s1 := exec submit_begin s in
        busy s1 = true ∧ submit_begin s1 = (None, s1) ∧
        todos s1 = todos s ∧ title s1 = title s ∧ err s1 = []).
Proof.
  split.
  - intros Hbusy. unfold submit_begin, mbind, M_bind, hooks. simpl.
    destruct Hbusy as [-> | ->]; by rewrite ?orb_true_r.
  - intros r Hr s1. destruct (submit_begin_Some s r Hr) as (_ & _ & _ & Heq).
    unfold s1, exec. rewrite Heq. simpl. split; [done|]. split; [|done].
    unfold submit_begin, mbind, M_bind, hooks. simpl. by rewrite orb_true_r.
Qed.

Lemma submit_guards_against_resubmission_witness :
  let s := {| todos := []; loading := false; err := [];
              title := lit "milk"; busy := false |} in
  let s1 := exec submit_begin s in
  busy s1 = true ∧ submit_begin s1 = (None, s1) ∧
  submit_begin {| todos := []; loading := true; err := [];
                  title := lit "milk"; busy := false |}
  = (None, {| todos := []; loading := true; err := [];
              title := lit "milk"; busy := false |}).
Proof.
  intros s s1.
  destruct (proj2 (submit_guards_against_resubmission s) _ eq_refl) as (Hb & Hs & _).
  split; [exact Hb|]. split; [exact Hs|].
  apply (proj1 (submit_guards_against_resubmission _)). by right.
Defined.

(** The whole of a [submit] that made its request.  When the create call
    succeeds the created task is put in front, the input is emptied and free
    again.  When it fails the input is free again and still holds what was
    typed, the collection is as before, the rejection goes on to the caller
    of [submit] and no error message is set. *)
Theorem submit_round_trip (s : State) (r : request) (created : obj) (e : Error) :
  eval submit_begin s = Some r →
  let s1 := exec submit_begin s in
  submit_settle (Resolved created) s1 =
    (Resolved (),
     {| todos := created :: todos s; loading := false; err := [];
        title := []; busy := false |}) ∧
  submit_settle (Rejected e) s1 =
    (Rejected e,
     {| todos := todos s; loading := false; err := [];
        title := title s; busy := false |}).
Proof.
  intros Hr s1. destruct (submit_begin_Some s r Hr) as (_ & _ & Hl & Heq).
  unfold s1, exec. rewrite Heq. simpl.
  unfold submit_settle, mbind, M_bind. simpl. by rewrite Hl.
Qed.

Lemma submit_round_trip_witness :
  let s := {| todos := []; loading := false; err := lit "old";
              title := lit " milk"; busy := false |} in
  let m : obj := {[ "id" := VNum 5; "title" := VStr (lit "milk"); "completed" := VBool false ]} in
  exec (submit_settle (Resolved m)) (exec submit_begin s)
    = {| todos := [m]; loading := false; err := []; title := []; busy := false |}.
Proof.
  intros s m.
  exact (f_equal snd (proj1 (submit_round_trip s _ m {| message := [] |} eq_refl))).
Defined.

(** ** The initial load *)

(** A load that settles after the component was unmounted changes nothing.
    One that settles while it is mounted always ends the loading state; it
    replaces the collection by the list received, by the empty list when the
    call resolved to [null], and on failure keeps the collection and sets a
    message that is displayed. *)
Theorem load_settle_cases (mounted : bool) (o : outcome (option (list obj))) (mid : State) :
  let s' := exec (load_settle mounted o) mid in
  (mounted = false → s' = mid) ∧
  (mounted = true →
     loading s' = false ∧ title s' = title mid ∧ busy s' = busy mid ∧
     match o with
     | Resolved (Some list) => todos s' = list ∧ err s' = err mid
     | Resolved None => todos s' = [] ∧ err s' = err mid
     | Rejected e =>
         todos s' = todos mid ∧ displayable (err s') = true ∧
         err s' = str_or (message e) (lit "Failed to load tasks")
     end).
Proof.
  intros s'. split; intros ->.
  - unfold s'. by destruct o, mid.
  - unfold s'. destruct o as [[list|]|e]; repeat split.
    by apply displayable_str_or.
Qed.

Lemma load_settle_cases_witness :
  let a : obj := {[ "id" := VNum 1; "title" := VStr (lit "A"); "completed" := VBool false ]} in
  let s0 := {| todos := []; loading := true; err := []; title := []; busy := false |} in
  exec (load_settle false (Resolved (Some [a]))) (exec load_begin s0) = exec load_begin s0 ∧
  todos (exec (load_settle true (Resolved (Some [a]))) (exec load_begin s0)) = [a] ∧
  loading (exec (load_settle true (Resolved (Some [a]))) (exec load_begin s0)) = false.
Proof.
  intros a s0. split; [|split].
  - exact (proj1 (load_settle_cases false (Resolved (Some [a])) (exec load_begin s0)) eq_refl).
  - exact (proj1 (proj2 (proj2 (proj2
      (proj2 (load_settle_cases true (Resolved (Some [a])) (exec load_begin s0)) eq_refl))))).
  - exact (proj1
      (proj2 (load_settle_cases true (Resolved (Some [a])) (exec load_begin s0)) eq_refl)).
Defined.

(** ** Unique ids *)

Lemma ids_app (l1 l2 : list obj) : ids (l1 ++ l2) = ids l1 ++ ids l2.
Proof. unfold ids. apply fmap_app. Qed.

Lemma ids_filter_sublist (P : obj → Prop) `{∀ t, Decision (P t)} (l : list obj) :
  ids (filter P l) `sublist_of` ids l.
Proof.
  induction l as [|t l IH]; [done|]. rewrite filter_cons.
  change (ids (t :: l)) with (obj_get t "id" :: ids l).
  destruct (decide (P t)).
  - change (ids (t :: filter P l)) with (obj_get t "id" :: ids (filter P l)).
    by apply sublist_skip.
  - by apply sublist_cons.
Qed.

Lemma ids_edit_reconcile (id : value) (updated : obj) (l : list obj) :
  obj_get updated "id" = id → ids (edit_reconcile id updated l) = ids l.
Proof. apply ids_edit_rollback. Qed.

(** An updater keyed on an id touches one entry when ids are unique. *)
Lemma fmap_unique_id (i : value) (g : obj → obj) (l1 l2 : list obj) (t : obj) :
  NoDup (ids (l1 ++ t :: l2)) → obj_get t "id" = i →
  (λ x, if strict_eq (obj_get x "id") i then g x else x) <$> (l1 ++ t :: l2)
  = l1 ++ g t :: l2.
Proof.
  rewrite ids_app. change (ids (t :: l2)) with (obj_get t "id" :: ids l2).
  intros (_ & Hl1 & (Hl2 & _)%NoDup_cons)%NoDup_app Hi. subst i.
  rewrite fmap_app, fmap_cons.
  rewrite !fmap_absent_id; [|done|].
  - unfold strict_eq. by rewrite bool_decide_eq_true_2.
  - intros Hin. apply (Hl1 _ Hin). left.
Qed.

(** Unique ids are kept by every part of a toggle, by a delete, by the
    optimistic part and the rollback of an edit; by the reconciliation of an
    edit when the server answers with the id that was edited, and by an add
    when the id of the created task is new. *)
Theorem handlers_keep_ids_unique (s : State) :
  NoDup (ids (todos s)) →
  (∀ item o, NoDup (ids (todos (exec (toggleTask_begin item) s))) ∧
             NoDup (ids (todos (exec (toggleTask_settle item o) s)))) ∧
  (∀ id (o : outcome unit), NoDup (ids (todos (exec (deleteTask_settle id o) s)))) ∧
  (∀ id ttl, NoDup (ids (todos (exec (editTask_begin id ttl) s)))) ∧
  (∀ id existing e, obj_get existing "id" = id →
     NoDup (ids (todos (exec (editTask_settle id existing (Rejected e)) s)))) ∧
  (∀ id existing updated, obj_get updated "id" = id →
     NoDup (ids (todos (exec (editTask_settle id existing (Resolved updated)) s)))) ∧
  (∀ created, obj_get created "id" ∉ ids (todos s) →
     NoDup (ids (todos (exec (addTask_settle (Resolved created)) s)))) ∧
  (∀ e, NoDup (ids (todos (exec (addTask_settle (Rejected e)) s)))).
Proof.
  intros Hnd. repeat split.
  - by rewrite toggleTask_begin_ids.
  - by rewrite toggleTask_settle_ids.
  - intros id [r|e]; [|done].
    change (todos (exec (deleteTask_settle id (Resolved r)) s))
      with (filter (λ t, negb (strict_eq (obj_get t "id") id)) (todos s)).
    eapply sublist_NoDup; [exact Hnd | apply ids_filter_sublist].
  - intros id ttl. unfold exec.
    destruct (byId (todos s) !! id) as [existing|] eqn:Hby.
    + rewrite (editTask_begin_found _ ttl _ _ Hby). simpl.
      by rewrite ids_edit_optimistic.
    + by rewrite (editTask_begin_missing _ ttl _ Hby).
  - intros id existing e Hex.
    change (NoDup (ids (edit_rollback id existing (todos s)))).
    by rewrite ids_edit_rollback.
  - intros id existing updated Hup.
    change (NoDup (ids (edit_reconcile id updated (todos s)))).
    by rewrite ids_edit_reconcile.
  - intros created Hnew.
    change (NoDup (obj_get created "id" :: ids (todos s))).
    by apply NoDup_cons.
  - done.
Qed.

Lemma handlers_keep_ids_unique_witness :
  let a : obj := {[ "id" := VNum 1; "title" := VStr (lit "A"); "completed" := VBool false ]} in
  let b : obj := {[ "id" := VNum 2; "title" := VStr (lit "B"); "completed" := VBool true ]} in
  let c : obj := {[ "id" := VNum 3; "title" := VStr (lit "C"); "completed" := VBool false ]} in
  let s := {| todos := [a; b]; loading := false; err := []; title := []; busy := false |} in
  NoDup (ids (todos s)) ∧
  NoDup (ids (todos (exec (addTask_settle (Resolved c)) s))) ∧
  NoDup (ids (todos (exec (deleteTask_settle (VNum 1) (Resolved ())) s))).
Proof.
  intros a b c s.
  assert (NoDup (ids (todos s))) as Hnd.
  { apply (bool_decide_unpack _). vm_compute. exact I. }
  destruct (handlers_keep_ids_unique s Hnd) as (_ & Hdel & _ & _ & _ & Hadd & _).
  split; [exact Hnd|]. split.
  - apply Hadd. apply (bool_decide_unpack _). vm_compute. exact I.
  - apply Hdel.
Defined.

(** ** [byId] finds the entry *)

Lemma byId_last (l1 l2 : list obj) (t : obj) :
  obj_get t "id" ∉ ids l2 → byId (l1 ++ t :: l2) !! obj_get t "id" = Some t.
Proof.
  induction l2 as [|x l2 IH] using rev_ind; intros Hnot.
  - by rewrite byId_snoc, lookup_insert_eq.
  - rewrite ids_snoc, elem_of_app, list_elem_of_singleton in Hnot.
    replace (l1 ++ t :: l2 ++ [x]) with ((l1 ++ t :: l2) ++ [x])
      by (by rewrite <- app_assoc).
    rewrite byId_snoc, lookup_insert_ne; [apply IH|]; intros H; apply Hnot; auto.
Qed.

Lemma byId_unique (l1 l2 : list obj) (t : obj) :
  NoDup (ids (l1 ++ t :: l2)) → byId (l1 ++ t :: l2) !! obj_get t "id" = Some t.
Proof.
  rewrite ids_app. change (ids (t :: l2)) with (obj_get t "id" :: ids l2).
  intros (_ & _ & (Hl2 & _)%NoDup_cons)%NoDup_app. by apply byId_last.
Qed.

(** [byId] maps an id to the last entry that carries it; with unique ids
    every entry of the collection is found under its own id. *)
Theorem byId_finds_the_entry (l1 l2 : list obj) (t : obj) :
  (obj_get t "id" ∉ ids l2 → byId (l1 ++ t :: l2) !! obj_get t "id" = Some t) ∧
  (NoDup (ids (l1 ++ t :: l2)) → byId (l1 ++ t :: l2) !! obj_get t "id" = Some t).
Proof. split; [apply byId_last | apply byId_unique]. Qed.

Lemma byId_finds_the_entry_witness :
  let a : obj := {[ "id" := VNum 1; "title" := VStr (lit "A"); "completed" := VBool false ]} in
  let b : obj := {[ "id" := VNum 2; "title" := VStr (lit "B"); "completed" := VBool true ]} in
  let c : obj := {[ "id" := VNum 3; "title" := VStr (lit "C"); "completed" := VBool false ]} in
  NoDup (ids ([a] ++ b :: [c])) ∧ byId ([a] ++ b :: [c]) !! obj_get b "id" = Some b.
Proof.
  intros a b c.
  assert (NoDup (ids ([a] ++ b :: [c]))) as Hnd.
  { apply (bool_decide_unpack _). vm_compute. exact I. }
  split; [exact Hnd|]. exact (proj2 (byId_finds_the_entry [a] [c] b) Hnd).
Defined.

(** ** Delete, whatever the ids are *)

(** After a successful delete no entry carries the id, also when several
    did; what remains is the rest of the collection in its order, and
    deleting the same id once more changes nothing. *)
Theorem deleteTask_clears_the_id {J} (s : State) (id : value) (r : J) :
  let s' := exec (deleteTask_settle id (Resolved r)) s in
  (id ∉ ids (todos s')) ∧
  todos s' `sublist_of` todos s ∧
  (∀ t, t ∈ todos s' ↔ t ∈ todos s ∧ obj_get t "id" ≠ id) ∧
  todos (exec (deleteTask_settle id (Resolved r)) s') = todos s'.
Proof.
  intros s'.
  assert (todos s' = filter (λ t, negb (strict_eq (obj_get t "id") id)) (todos s)) as Hs'
    by reflexivity.
  assert (∀ t, t ∈ todos s' ↔ t ∈ todos s ∧ obj_get t "id" ≠ id) as Hmem.
  { intros t. rewrite Hs', list_elem_of_filter, negb_True, <- strict_eq_false.
    rewrite <- Is_true_false. tauto. }
  split; [|split; [|split]].
  - intros (t & Ht & Hid)%elem_of_ids. apply Hmem in Ht as [_ Hne]. done.
  - rewrite Hs'. apply sublist_filter.
  - done.
  - change (todos (exec (deleteTask_settle id (Resolved r)) s'))
      with (filter (λ t, negb (strict_eq (obj_get t "id") id)) (todos s')).
    apply filter_all. intros t Ht. apply Hmem in Ht as [_ Hne].
    by apply negb_True, Is_true_false_2, strict_eq_false.
Qed.

(** ** The success path of a toggle and of an edit *)

(** With unique ids, a toggle of an entry of the collection that the server
    answers with a task of the same id leaves the collection with that
    answer in the entry's place and every other entry untouched; on the way
    the entry shows the flipped [completed], which is also what the request
    asks the server for. *)
Theorem toggleTask_success_replaces_entry (s : State) (l1 l2 : list obj)
    (item updated : obj) :
  NoDup (ids (todos s)) → todos s = l1 ++ item :: l2 →
  obj_get updated "id" = obj_get item "id" →
  let flipped := VBool (negb (truthy (obj_get item "completed"))) in
  let s1 := exec (toggleTask_begin item) s in
  todos s1 = l1 ++ <["completed" := flipped]> item :: l2 ∧
  body (eval (toggleTask_begin item) s) = Some {[ "completed" := flipped ]} ∧
  todos (exec (toggleTask_settle item (Resolved updated)) s1) = l1 ++ updated :: l2 ∧
  err (exec (toggleTask_settle item (Resolved updated)) s1) = [].
Proof.
  intros Hnd Hs Hup flipped s1. rewrite Hs in Hnd.
  assert (todos s1 = l1 ++ <["completed" := flipped]> item :: l2) as Hs1.
  { unfold s1. rewrite toggleTask_begin_todos, Hs. unfold toggle_optimistic.
    by rewrite (fmap_unique_id _ (λ t, <["completed" :=
      VBool (negb (truthy (obj_get t "completed")))]> t)). }
  split; [done|]. split; [done|]. split; [|done].
  rewrite toggleTask_settle_todos, Hs1. unfold toggle_reconcile.
  rewrite (fmap_unique_id _ (λ _, updated)); [done| |].
  - rewrite <- Hs1. unfold s1. by rewrite toggleTask_begin_ids, Hs.
  - by rewrite obj_get_insert_ne.
Qed.

Lemma toggleTask_success_replaces_entry_witness :
  let a : obj := {[ "id" := VNum 1; "title" := VStr (lit "A"); "completed" := VBool false ]} in
  let b : obj := {[ "id" := VNum 2; "title" := VStr (lit "B"); "completed" := VBool true ]} in
  let b' : obj := {[ "id" := VNum 2; "title" := VStr (lit "B!"); "completed" := VBool false ]} in
  let s := {| todos := [a; b]; loading := false; err := []; title := []; busy := false |} in
  todos (exec (toggleTask_settle b (Resolved b')) (exec (toggleTask_begin b) s)) = [a] ++ b' :: [].
Proof.
  intros a b b' s.
  refine (proj1 (proj2 (proj2 (toggleTask_success_replaces_entry s [a] [] b b' _ eq_refl eq_refl)))).
  apply (bool_decide_unpack _). vm_compute. exact I.
Defined.



(** ** The checkbox and the rollback of a toggle *)

(** The optimistic flip inverts the checkbox of every entry of the toggled
    id, whatever value [completed] holds; two flips show every checkbox as
    it was, and give the collection back when [completed] is a boolean on
    the entries of that id. *)
Theorem toggle_flips_the_checkbox (item : obj) (l : list obj) :
  (∀ n t, l !! n = Some t → obj_get t "id" = obj_get item "id" →
     ∃ t', toggle_optimistic item l !! n = Some t' ∧
           TodoItem.checked t' = negb (TodoItem.checked t)) ∧
  TodoItem.checked <$> toggle_optimistic item (toggle_optimistic item l)
    = TodoItem.checked <$> l ∧
  ((∀ t, t ∈ l → obj_get t "id" = obj_get item "id" →
         ∃ b, t !! "completed" = Some (VBool b)) →
   toggle_optimistic item (toggle_optimistic item l) = l).
Proof.
  split; [|split].
  - intros n t Hn Hid. unfold toggle_optimistic. rewrite list_lookup_fmap, Hn. simpl.
    eexists. split; [reflexivity|].
    rewrite (proj2 (strict_eq_true _ _) Hid).
    unfold TodoItem.checked. by rewrite obj_get_insert_eq.
  - unfold toggle_optimistic. rewrite <- !list_fmap_compose.
    apply list_fmap_ext. intros n t _. simpl.
    destruct (strict_eq (obj_get t "id") (obj_get item "id")) eqn:E; [|by rewrite E].
    rewrite obj_get_insert_ne, E by done.
    unfold TodoItem.checked. rewrite !obj_get_insert_eq. simpl. apply negb_involutive.
  - intros Hbool. unfold toggle_optimistic. rewrite <- list_fmap_compose.
    rewrite <- (list_fmap_id l) at 2.
    apply list_fmap_ext. intros n t Hn. simpl.
    destruct (strict_eq (obj_get t "id") (obj_get item "id")) eqn:E; [|by rewrite E].
    rewrite obj_get_insert_ne, E by done.
    destruct (Hbool t) as [b Hb];
      [by eapply list_elem_of_lookup_2 | by apply strict_eq_true |].
    rewrite insert_insert_eq, obj_get_insert_eq. unfold obj_get. rewrite Hb. simpl.
    rewrite negb_involutive. by apply insert_id.
Qed.

Lemma toggle_flips_the_checkbox_witness :
  let a : obj := {[ "id" := VNum 1; "title" := VStr (lit "A"); "completed" := VBool false ]} in
  let u : obj := {[ "id" := VNum 2; "title" := VStr (lit "no flag") ]} in
  toggle_optimistic a (toggle_optimistic a [a; u]) = [a; u] ∧
  ∃ u', toggle_optimistic u [a; u] !! 1 = Some u' ∧ TodoItem.checked u' = true.
Proof.
  intros a u. split.
  - apply (proj2 (proj2 (toggle_flips_the_checkbox a [a; u]))).
    intros t Ht Hid. exists false.
    apply elem_of_cons in Ht as [-> | Ht]; [reflexivity|].
    apply list_elem_of_singleton in Ht as ->. vm_compute in Hid. discriminate Hid.
  - exact (proj1 (toggle_flips_the_checkbox u [a; u]) 1 u eq_refl eq_refl).
Defined.

(** With unique ids, a failed toggle of an entry of the collection leaves
    that entry with its own [completed] written into it and every other
    entry untouched: the collection is the one before the toggle whenever
    the entry had a [completed] property at all. *)
Theorem toggleTask_failure_restores_collection (s : State) (l1 l2 : list obj)
    (item : obj) (e : Error) :
  NoDup (ids (todos s)) → todos s = l1 ++ item :: l2 →
  let s' := exec (toggleTask_settle item (Rejected e)) (exec (toggleTask_begin item) s) in
  todos s' = l1 ++ <["completed" := obj_get item "completed"]> item :: l2 ∧
  (is_Some (item !! "completed") → todos s' = todos s).
Proof.
  intros Hnd Hs s'. rewrite Hs in Hnd.
  assert (todos s' = l1 ++ <["completed" := obj_get item "completed"]> item :: l2) as Hs'.
  { unfold s'. rewrite toggleTask_settle_todos, toggleTask_begin_todos, Hs.
    unfold toggle_optimistic.
    rewrite (fmap_unique_id _ (λ t, <["completed" :=
      VBool (negb (truthy (obj_get t "completed")))]> t)) by done.
    unfold toggle_rollback.
    rewrite (fmap_unique_id _ (λ t, <["completed" := obj_get item "completed"]> t)).
    - by rewrite insert_insert_eq.
    - pose proof (ids_toggle_optimistic item (l1 ++ item :: l2)) as Hids.
      unfold toggle_optimistic in Hids.
      rewrite (fmap_unique_id _ (λ t, <["completed" :=
        VBool (negb (truthy (obj_get t "completed")))]> t)) in Hids by done.
      by rewrite Hids.
    - by rewrite obj_get_insert_ne. }
  split; [done|]. intros [v Hv]. rewrite Hs', Hs. unfold obj_get. rewrite Hv. simpl.
  by rewrite insert_id.
Qed.

Lemma toggleTask_failure_restores_collection_witness :
  let a : obj := {[ "id" := VNum 1; "title" := VStr (lit "A"); "completed" := VBool false ]} in
  let b : obj := {[ "id" := VNum 2; "title" := VStr (lit "B"); "completed" := VBool true ]} in
  let s := {| todos := [a; b]; loading := false; err := []; title := []; busy := false |} in
  todos (exec (toggleTask_settle a (Rejected {| message := lit "boom" |}))
              (exec (toggleTask_begin a) s)) = todos s.
Proof.
  intros a b s.
  refine (proj2 (toggleTask_failure_restores_collection s [] [b] a _ _ eq_refl) _).
  - apply (bool_decide_unpack _). vm_compute. exact I.
  - by exists (VBool false).
Defined.

(** ** Toggles on different tasks *)

Lemma keyed_commute (i j : value) (g h : obj → obj) (l : list obj) :
  i ≠ j →
  (∀ t, obj_get t "id" = i → obj_get (g t) "id" = i) →
  (∀ t, obj_get t "id" = j → obj_get (h t) "id" = j) →
  keyed i g (keyed j h l) = keyed j h (keyed i g l).
Proof.
  intros Hij Hg Hh. unfold keyed. rewrite <- !list_fmap_compose.
  apply list_fmap_ext. intros n t _. simpl.
  destruct (strict_eq (obj_get t "id") j) eqn:Ej, (strict_eq (obj_get t "id") i) eqn:Ei.
  - apply strict_eq_true in Ej, Ei. congruence.
  - rewrite ?Ej, ?Ei. apply strict_eq_true in Ej.
    by rewrite (proj2 (strict_eq_false (obj_get (h t) "id") i))
      by (rewrite (Hh t Ej); congruence).
  - rewrite ?Ej, ?Ei. apply strict_eq_true in Ei.
    by rewrite (proj2 (strict_eq_false (obj_get (g t) "id") j))
      by (rewrite (Hg t Ei); congruence).
  - by rewrite ?Ei, ?Ej.
Qed.

Lemma toggle_parts_keyed (item : obj) (o : outcome obj) :
  same_id_answer item o →
  Forall (keyed_part (obj_get item "id")) (toggle_parts item o).
Proof.
  intros Ho. unfold toggle_parts. repeat constructor.
  - exists (λ t, <["completed" := VBool (negb (truthy (obj_get t "completed")))]> t).
    split; [|done]. intros t Ht. by rewrite obj_get_insert_ne.
  - destruct o as [updated|e]; simpl in Ho.
    + exists (λ _, updated). split; [done|]. intros s.
      rewrite toggleTask_settle_todos. unfold toggle_reconcile, keyed. by rewrite Ho.
    + exists (λ t, <["completed" := obj_get item "completed"]> t).
      split; [|done]. intros t Ht. by rewrite obj_get_insert_ne.
Qed.

Lemma keyed_part_respects (i : value) (p : State → State) (s1 s2 : State) :
  keyed_part i p → todos s1 = todos s2 → todos (p s1) = todos (p s2).
Proof. intros (g & _ & Hp) Hs. by rewrite !Hp, Hs. Qed.

Lemma keyed_parts_commute (i j : value) (p q : State → State) (s : State) :
  i ≠ j → keyed_part i p → keyed_part j q → todos (p (q s)) = todos (q (p s)).
Proof.
  intros Hij (g & Hg & Hp) (h & Hh & Hq).
  rewrite Hp, Hq, Hq, Hp. by apply keyed_commute.
Qed.

Lemma run_app (a b : list (State → State)) (s : State) :
  run (a ++ b) s = run b (run a s).
Proof. unfold run. apply foldl_app. Qed.

Lemma run_respects (i : value) (ps : list (State → State)) (s1 s2 : State) :
  Forall (keyed_part i) ps → todos s1 = todos s2 →
  todos (run ps s1) = todos (run ps s2).
Proof.
  intros Hps. revert s1 s2.
  induction Hps as [|p ps Hp _ IH]; intros s1 s2 Hs; [done|].
  apply IH. by eapply keyed_part_respects.
Qed.

Lemma run_commutes (i j : value) (ps : list (State → State)) (q : State → State) (s : State) :
  i ≠ j → Forall (keyed_part i) ps → keyed_part j q →
  todos (run ps (q s)) = todos (q (run ps s)).
Proof.
  intros Hij Hps Hq. revert s.
  induction Hps as [|p ps Hp Hps' IH]; intros s; [done|].
  change (todos (run ps (p (q s))) = todos (q (run ps (p s)))).
  rewrite <- IH. apply (run_respects i); [done|].
  by eapply keyed_parts_commute.
Qed.

Lemma interleaving_of_keyed_parts (i j : value) (a b c : list (State → State)) (s : State) :
  i ≠ j → Forall (keyed_part i) a → Forall (keyed_part j) b →
  interleaving a b c → todos (run c s) = todos (run (a ++ b) s).
Proof.
  intros Hij Ha Hb Hc. revert s Ha Hb.
  induction Hc as [|x a b c _ IH|x a b c _ IH]; intros s Ha Hb; [done| |].
  - inversion Ha; subst. by apply IH.
  - inversion Hb as [|? ? Hx Hb']; subst.
    change (todos (run c (x s)) = todos (run (a ++ x :: b) s)).
    rewrite IH, !run_app by done.
    change (run (x :: b) (run a s)) with (run b (x (run a s))).
    apply (run_respects j); [done|]. by eapply run_commutes.
Qed.

(** Two toggles on tasks of different ids, each answered (if at all) with a
    task of its own id, do not interfere: in whatever order their optimistic
    flips and settlements are applied, the collection ends as if one toggle
    had run to its end before the other began. *)
Theorem toggles_on_different_ids_are_independent (s : State) (a b : obj)
    (o1 o2 : outcome obj) (sched : list (State → State)) :
  obj_get a "id" ≠ obj_get b "id" →
  same_id_answer a o1 → same_id_answer b o2 →
  interleaving (toggle_parts a o1) (toggle_parts b o2) sched →
  todos (run sched s) = todos (run (toggle_parts a o1 ++ toggle_parts b o2) s).
Proof.
  intros Hab Ho1 Ho2 Hsched.
  eapply interleaving_of_keyed_parts; [exact Hab | | | exact Hsched];
    by apply toggle_parts_keyed.
Qed.

Lemma toggles_on_different_ids_are_independent_witness :
  let a : obj := {[ "id" := VNum 1; "title" := VStr (lit "A"); "completed" := VBool false ]} in
  let b : obj := {[ "id" := VNum 2; "title" := VStr (lit "B"); "completed" := VBool true ]} in
  let b' : obj := {[ "id" := VNum 2; "title" := VStr (lit "B"); "completed" := VBool false ]} in
  let s := {| todos := [a; b]; loading := false; err := []; title := []; busy := false |} in
  let boom := Rejected {| message := lit "boom" |} in
  todos (run [exec (toggleTask_begin a); exec (toggleTask_begin b);
              exec (toggleTask_settle b (Resolved b')); exec (toggleTask_settle a boom)] s)
  = [a; b'].
Proof.
  intros a b b' s boom.
  refine (eq_trans (toggles_on_different_ids_are_independent s a b boom (Resolved b') _
                      _ _ _ _) _).
  - vm_compute. discriminate.
  - exact I.
  - reflexivity.
  - apply interleaving_left, interleaving_right, interleaving_right,
      interleaving_left, interleaving_nil.
  - by vm_compute.
Defined.

(** ** The error message after a success *)

(** A successful settlement of add, delete, toggle or edit leaves the error
    message as it finds it; so each of these operations, run from any state
    to its success with nothing in between, ends with no message on display,
    whatever message was there before. *)
Theorem success_ends_without_message (s mid : State) (ttl : jsstring) (item created updated : obj)
    (id : value) (existing : obj) :
  (err (exec (addTask_settle (Resolved created)) mid) = err mid ∧
   err (exec (deleteTask_settle id (Resolved ())) mid) = err mid ∧
   err (exec (toggleTask_settle item (Resolved updated)) mid) = err mid ∧
   err (exec (editTask_settle id existing (Resolved updated)) mid) = err mid) ∧
  (displayable (err (exec (addTask_settle (Resolved created))
                          (exec (addTask_begin ttl) s))) = false ∧
   displayable (err (exec (deleteTask_settle id (Resolved ()))
                          (exec (deleteTask_begin id) s))) = false ∧
   displayable (err (exec (toggleTask_settle item (Resolved updated))
                          (exec (toggleTask_begin item) s))) = false ∧
   displayable (err (exec (editTask_settle id existing (Resolved updated))
                          (exec (editTask_begin id ttl) s))) = false).
Proof.
  split; [done|]. repeat split.
  change (displayable (err (exec (editTask_begin id ttl) s)) = false).
  by rewrite editTask_begin_err.
Qed.

(** ** The theme *)

(** Whatever the theme hook holds, a click sets it to light or dark; on
    these two a second click undoes the first.  The [aria-label] of the
    button announces exactly the theme the click will set, and the text of
    the button names it as well. *)
Theorem toggleTheme_and_its_labels (theme : jsstring) :
  (toggleTheme theme = lit "light" ∨ toggleTheme theme = lit "dark") ∧
  (theme = lit "light" ∨ theme = lit "dark" → toggleTheme (toggleTheme theme) = theme) ∧
  toggleTheme (toggleTheme (toggleTheme theme)) = toggleTheme theme ∧
  Header_aria_label theme = lit "Switch to " ++ toggleTheme theme ++ lit " mode" ∧
  (toggleTheme theme = lit "dark" →
     Header_button_text theme = [55356; 57113]%N ++ lit " Dark") ∧
  (toggleTheme theme = lit "light" →
     Header_button_text theme = [9728; 65039]%N ++ lit " Light").
Proof.
  unfold toggleTheme, Header_aria_label, Header_button_text, strict_eq.
  case_bool_decide as Hl.
  - injection Hl as ->. repeat split; auto; try done.
  - repeat split; auto; try done.
    intros [-> | ->]; [by destruct Hl | reflexivity].
Qed.

Lemma toggleTheme_and_its_labels_witness :
  toggleTheme (toggleTheme (lit "dark")) = lit "dark" ∧
  Header_button_text (lit "light") = [55356; 57113]%N ++ lit " Dark".
Proof.
  split.
  - apply (proj1 (proj2 (toggleTheme_and_its_labels (lit "dark")))). by right.
  - apply (proj1 (proj2 (proj2 (proj2 (proj2 (toggleTheme_and_its_labels (lit "light"))))))).
    reflexivity.
Defined.

(** ** [TodoItem.commit] *)

(** Committing an edit whose text trims to nothing, or to the title the
    task already has, closes the editor and does nothing else: [editTask] is
    not called, so no request is made and no hook of [App] changes, the
    error message included. *)
Theorem commit_ignores_blank_and_unchanged (item : obj) (st : TodoItem.state) (s : State) :
  trim (TodoItem.val st) = [] ∨ obj_get item "title" = VStr (trim (TodoItem.val st)) →
  TodoItem.commit_begin item st s =
    (TodoItem.Committed,
     {| TodoItem.editing := false; TodoItem.val := TodoItem.val st;
        TodoItem.busy := TodoItem.busy st |},
     s).
Proof.
  intros H. unfold TodoItem.commit_begin.
  destruct H as [H | H].
  - by rewrite H.
  - rewrite H. unfold strict_eq. rewrite bool_decide_eq_true_2 by done.
    by rewrite andb_false_r.
Qed.

Lemma commit_ignores_blank_and_unchanged_witness :
  let a : obj := {[ "id" := VNum 1; "title" := VStr (lit "A"); "completed" := VBool false ]} in
  let s := {| todos := [a]; loading := false; err := lit "old"; title := []; busy := false |} in
  TodoItem.commit_begin a
    {| TodoItem.editing := true; TodoItem.val := lit " A "; TodoItem.busy := false |} s
  = (TodoItem.Committed,
     {| TodoItem.editing := false; TodoItem.val := lit " A "; TodoItem.busy := false |}, s).
Proof.
  intros a s.
  apply (commit_ignores_blank_and_unchanged a
           {| TodoItem.editing := true; TodoItem.val := lit " A "; TodoItem.busy := false |} s).
  right. reflexivity.
Defined.

Lemma editTask_begin_unique (s : State) (l1 l2 : list obj) (t : obj) (ttl : jsstring) :
  NoDup (ids (todos s)) → todos s = l1 ++ t :: l2 →
  editTask_begin (obj_get t "id") ttl s =
    (Some (t, {| method := "PATCH"; path := lit "/todos/" ++ to_string (obj_get t "id");
                 body := Some {[ "title" := VStr ttl ]} |}),
     {| todos := l1 ++ <["title" := VStr ttl]> t :: l2; loading := loading s;
        err := []; title := title s; busy := busy s |}).
Proof.
  intros Hnd Hs. rewrite Hs in Hnd.
  assert (byId (todos s) !! obj_get t "id" = Some t) as Hby
    by (rewrite Hs; by apply byId_unique).
  rewrite (editTask_begin_found _ ttl _ _ Hby), Hs. unfold edit_optimistic.
  by rewrite (fmap_unique_id _ (λ t, <["title" := VStr ttl]> t)).
Qed.




(** ** Settlements that land late *)

Lemma ids_replace (l1 l2 : list obj) (x x' : obj) :
  obj_get x' "id" = obj_get x "id" → ids (l1 ++ x' :: l2) = ids (l1 ++ x :: l2).
Proof.
  intros Hid. rewrite !ids_app.
  change (ids (x' :: l2)) with (obj_get x' "id" :: ids l2).
  change (ids (x :: l2)) with (obj_get x "id" :: ids l2).
  by rewrite Hid.
Qed.

(** With unique ids: an edit is in flight, a toggle of the same task starts
    and succeeds, then the edit fails.  The rollback of the edit puts its
    snapshot back, so the collection is the one before the edit: what the
    server confirmed for the toggle is no longer in it. *)
Theorem failed_edit_undoes_a_toggle_in_between (s : State) (l1 l2 : list obj)
    (t item updated : obj) (ttl : jsstring) (e : Error) :
  NoDup (ids (todos s)) → todos s = l1 ++ t :: l2 →
  obj_get item "id" = obj_get t "id" → obj_get updated "id" = obj_get t "id" →
  let s1 := exec (editTask_begin (obj_get t "id") ttl) s in
  let s2 := exec (toggleTask_begin item) s1 in
  let s3 := exec (toggleTask_settle item (Resolved updated)) s2 in
  let s4 := exec (editTask_settle (obj_get t "id") t (Rejected e)) s3 in
  todos s3 = l1 ++ updated :: l2 ∧ todos s4 = todos s.
Proof.
  intros Hnd Hs Hitem Hup s1 s2 s3 s4.
  assert (todos s1 = l1 ++ <["title" := VStr ttl]> t :: l2) as Hs1.
  { unfold s1, exec. by rewrite (editTask_begin_unique s l1 l2 t ttl Hnd Hs). }
  rewrite Hs in Hnd.
  set (t1 := <["title" := VStr ttl]> t) in *.
  assert (obj_get t1 "id" = obj_get t "id") as Hid1 by (by apply obj_get_insert_ne).
  set (t2 := <["completed" := VBool (negb (truthy (obj_get t1 "completed")))]> t1).
  assert (obj_get t2 "id" = obj_get t "id") as Hid2
    by (unfold t2; by rewrite obj_get_insert_ne).
  assert (todos s2 = l1 ++ t2 :: l2) as Hs2.
  { unfold s2. rewrite toggleTask_begin_todos, Hs1. unfold toggle_optimistic.
    rewrite (fmap_unique_id _ (λ t, <["completed" :=
      VBool (negb (truthy (obj_get t "completed")))]> t)); [done| |congruence].
    by rewrite (ids_replace l1 l2 t t1). }
  assert (todos s3 = l1 ++ updated :: l2) as Hs3.
  { unfold s3. rewrite toggleTask_settle_todos, Hs2. unfold toggle_reconcile.
    rewrite (fmap_unique_id _ (λ _, updated)); [done| |congruence].
    by rewrite (ids_replace l1 l2 t t2). }
  split; [done|].
  change (todos s4) with (edit_rollback (obj_get t "id") t (todos s3)).
  rewrite Hs3, Hs. unfold edit_rollback.
  rewrite (fmap_unique_id _ (λ _, t)); [done| |done].
  by rewrite (ids_replace l1 l2 t updated).
Qed.

Lemma failed_edit_undoes_a_toggle_in_between_witness :
  let a : obj := {[ "id" := VNum 1; "title" := VStr (lit "A"); "completed" := VBool false ]} in
  let a1 : obj := {[ "id" := VNum 1; "title" := VStr (lit "A2"); "completed" := VBool false ]} in
  let a2 : obj := {[ "id" := VNum 1; "title" := VStr (lit "A"); "completed" := VBool true ]} in
  let s := {| todos := [a]; loading := false; err := []; title := []; busy := false |} in
  let s1 := exec (editTask_begin (obj_get a "id") (lit "A2")) s in
  let s2 := exec (toggleTask_begin a1) s1 in
  let s3 := exec (toggleTask_settle a1 (Resolved a2)) s2 in
  let s4 := exec (editTask_settle (obj_get a "id") a (Rejected {| message := lit "boom" |})) s3 in
  todos s3 = [a2] ∧ todos s4 = [a].
Proof.
  intros a a1 a2 s.
  refine (failed_edit_undoes_a_toggle_in_between s [] [] a a1 a2 (lit "A2") _ _ eq_refl
            eq_refl eq_refl).
  apply (bool_decide_unpack _). vm_compute. exact I.
Defined.

(** Once no entry carries an id, for instance after its delete, no late
    settlement of a toggle or of an edit of that id changes the collection:
    neither a rollback nor a reconciliation brings the task back. *)
Theorem late_settlement_does_not_resurrect (mid : State) (id : value) (item existing : obj)
    (o : outcome obj) :
  id ∉ ids (todos mid) →
  obj_get item "id" = id → same_id_answer item o →
  todos (exec (toggleTask_settle item o) mid) = todos mid ∧
  todos (exec (editTask_settle id existing o) mid) = todos mid.
Proof.
  intros Hi Hitem Ho. split.
  - rewrite toggleTask_settle_todos. destruct o as [updated|e]; simpl in Ho.
    + unfold toggle_reconcile. apply fmap_absent_id. congruence.
    + unfold toggle_rollback. apply fmap_absent_id. congruence.
  - destruct o as [updated|e].
    + change (edit_reconcile id updated (todos mid) = todos mid).
      by apply fmap_absent_id.
    + change (edit_rollback id existing (todos mid) = todos mid).
      by apply fmap_absent_id.
Qed.

Lemma late_settlement_does_not_resurrect_witness :
  let a : obj := {[ "id" := VNum 1; "title" := VStr (lit "A"); "completed" := VBool false ]} in
  let b : obj := {[ "id" := VNum 2; "title" := VStr (lit "B"); "completed" := VBool true ]} in
  let b' : obj := {[ "id" := VNum 2; "title" := VStr (lit "B"); "completed" := VBool false ]} in
  let s := {| todos := [a; b]; loading := false; err := []; title := []; busy := false |} in
  let s1 := exec (toggleTask_begin b) s in
  let s2 := exec (deleteTask_settle (VNum 2) (Resolved ())) s1 in
  todos (exec (toggleTask_settle b (Resolved b')) s2) = [a].
Proof.
  intros a b b' s s1 s2.
  refine (proj1 (late_settlement_does_not_resurrect s2 (VNum 2) b b (Resolved b') _ eq_refl
                   eq_refl)).
  apply (bool_decide_unpack _). vm_compute. exact I.
Defined.
